(** * Co-purchase graph of [task2.py]: embedding and verified properties

    The class [WeightedUndirectedGraph] keeps three attributes: a
    [defaultdict(dict)] adjacency list, a [Counter] of purchase
    frequencies and a literal category table.  Python dictionaries
    iterate in insertion order and the query methods sort with the stable
    [sorted(..., reverse=True)], so the order of the entries is observable
    and a dictionary is modelled as an association list with the
    dictionary's update discipline (replace in place, append when new).

    Methods are written in a small state-and-exception monad over the
    object's attributes, so that [defaultdict.__getitem__] (which inserts
    a missing key) and the subscripts that may raise are visible.  The
    calls to the logger are left out: they do not touch the attributes. *)

From Stdlib Require Import List String Ascii ZArith Bool Lia Arith.
From Stdlib Require Import Permutation Sorted.
Import ListNotations.

Open Scope string_scope.
Open Scope list_scope.
Open Scope Z_scope.

(** ** Python dictionaries keyed by [str] *)

Module Dict.

Definition dict (V : Type) : Type := list (string * V).

Definition empty {V : Type} : dict V := [].

(** [k in d] *)
Fixpoint contains {V : Type} (k : string) (d : dict V) : bool :=
  match d with
  | [] => false
  | (k', _) :: r => if String.eqb k' k then true else contains k r
  end.

(** [d.get(k)] as an option; [None] is where [d[k]] raises [KeyError]. *)
Fixpoint get {V : Type} (k : string) (d : dict V) : option V :=
  match d with
  | [] => None
  | (k', v) :: r => if String.eqb k' k then Some v else get k r
  end.

(** [d[k] = v]: an existing key keeps its position, a new one goes last. *)
Fixpoint set {V : Type} (k : string) (v : V) (d : dict V) : dict V :=
  match d with
  | [] => [(k, v)]
  | (k', v') :: r =>
      if String.eqb k' k then (k', v) :: r else (k', v') :: set k v r
  end.

(** [d.items()], [d.keys()] in iteration order. *)
Definition items {V : Type} (d : dict V) : list (string * V) := d.
Definition keys {V : Type} (d : dict V) : list string := map fst d.

(** [{k: v for k, v in l}] *)
Definition of_items {V : Type} (l : list (string * V)) : dict V :=
  fold_left (fun d kv => set (fst kv) (snd kv) d) l empty.

(** Keys of a dictionary are pairwise distinct. *)
Definition wf {V : Type} (d : dict V) : Prop := NoDup (keys d).

End Dict.

Import Dict.

(** ** [collections.Counter] *)

Module Counter.

Definition counter : Type := dict Z.

(** [c[k]]: [Counter.__missing__] answers 0 and stores nothing. *)
Definition get (k : string) (c : counter) : Z :=
  match Dict.get k c with Some v => v | None => 0 end.

(** [c[k] += n] *)
Definition add (k : string) (n : Z) (c : counter) : counter :=
  Dict.set k (get k c + n) c.

End Counter.

(** ** Built-ins: [sorted], slices, [in] on lists *)

Section Sorting.

Context {A : Type}.

(** [before x y] holds when [x] may stand in front of [y]. *)
Variable before : A -> A -> bool.

Fixpoint insert_stable (x : A) (l : list A) : list A :=
  match l with
  | [] => [x]
  | y :: r => if before x y then x :: y :: r else y :: insert_stable x r
  end.

(** Stable sort: an element is put in front of the elements that come
    later in the input unless one of them must precede it. *)
Fixpoint stable_sort (l : list A) : list A :=
  match l with
  | [] => []
  | x :: r => insert_stable x (stable_sort r)
  end.

End Sorting.

(** [sorted(l)] on strings: ascending by code points.  The bytes of
    UTF-8 compare like the code points they encode. *)
Definition sorted_str (l : list string) : list string :=
  stable_sort String.leb l.

(** [sorted(l, key=lambda x: x[1], reverse=True)]: descending by the
    second component; [reverse=True] keeps equal keys in input order. *)
Definition sorted_by_count_desc {K : Type} (l : list (K * Z)) : list (K * Z) :=
  stable_sort (fun x y => snd y <=? snd x) l.

(** [l[:n]] for a Python integer [n]; a negative bound counts from the end. *)
Definition slice_to {A : Type} (n : Z) (l : list A) : list A :=
  if 0 <=? n then firstn (Z.to_nat n) l
  else firstn (List.length l - Z.to_nat (- n)) l.

(** [x in l] for a list of strings. *)
Definition str_in (x : string) (l : list string) : bool :=
  existsb (String.eqb x) l.

(** [heapq.nlargest(n, c.items(), key=itemgetter(1))], which is what
    [Counter.most_common(n)] runs for an integer [n]: the stable
    descending sort cut to [n], and nothing for [n <= 0]. *)
Definition most_common (n : Z) (c : Counter.counter) : list (string * Z) :=
  if n <=? 0 then [] else firstn (Z.to_nat n) (sorted_by_count_desc (items c)).

(** ** The object and its monad *)

Record Graph : Type := mkGraph {
  adjacency_list : dict (dict Z);
  product_frequency : Counter.counter;
  product_categories : dict string
}.

Inductive exn : Type :=
| KeyError (k : string)
| IndexError
| AttributeError.

Inductive outcome (A : Type) : Type :=
| Ok (a : A) (g : Graph)
| Raise (e : exn) (g : Graph).

Arguments Ok {A} a g.
Arguments Raise {A} e g.

Definition M (A : Type) : Type := Graph -> outcome A.

Definition ret {A : Type} (a : A) : M A := fun g => Ok a g.

Definition bind {A B : Type} (m : M A) (k : A -> M B) : M B :=
  fun g => match m g with
           | Ok a g' => k a g'
           | Raise e g' => Raise e g'
           end.

Definition raise {A : Type} (e : exn) : M A := fun g => Raise e g.

Declare Scope py_scope.
Delimit Scope py_scope with py.
Notation "x <- m ;; k" := (bind m (fun x => k))
  (at level 61, m at next level, right associativity) : py_scope.
Notation "m ;; k" := (bind m (fun _ => k))
  (at level 61, right associativity) : py_scope.
Open Scope py_scope.

Definition read {A : Type} (f : Graph -> A) : M A := fun g => Ok (f g) g.

Definition write_adjacency (adj : dict (dict Z)) : M unit :=
  fun g => Ok tt (mkGraph adj (product_frequency g) (product_categories g)).

Definition write_frequency (c : Counter.counter) : M unit :=
  fun g => Ok tt (mkGraph (adjacency_list g) c (product_categories g)).

(** [for x in l: body(x)] *)
Fixpoint for_each {A : Type} (l : list A) (body : A -> M unit) : M unit :=
  match l with
  | [] => ret tt
  | x :: r => body x ;; for_each r body
  end.

(** A loop that updates a local variable. *)
Fixpoint for_fold {A S : Type} (l : list A) (body : S -> A -> M S) (s : S)
  : M S :=
  match l with
  | [] => ret s
  | x :: r => s' <- body s x ;; for_fold r body s'
  end.

(** [range(a, b)] *)
Definition range (a b : nat) : list nat := seq a (b - a).

(** [l[i]] on a list, for [0 <= i]. *)
Definition list_getitem (l : list string) (i : nat) : M string :=
  match nth_error l i with
  | Some x => ret x
  | None => raise IndexError
  end.

(** [d[k]] on a plain [dict]. *)
Definition dict_getitem (k : string) (d : dict Z) : M Z :=
  match Dict.get k d with
  | Some v => ret v
  | None => raise (KeyError k)
  end.

(** [self.adjacency_list[k]]: [defaultdict(dict).__getitem__] stores a
    new empty dictionary under a missing key and returns it. *)
Definition adjacency_getitem (k : string) : M (dict Z) :=
  adj <- read adjacency_list ;;
  match Dict.get k adj with
  | Some d => ret d
  | None => write_adjacency (Dict.set k Dict.empty adj) ;; ret Dict.empty
  end.

(** [k in self.adjacency_list] *)
Definition adjacency_contains (k : string) : M bool :=
  adj <- read adjacency_list ;; ret (Dict.contains k adj).

(** [d[k2] = v] where [d] is the dictionary object stored under [k1]:
    the object is shared with the adjacency list, so the store is seen
    there, at the place [k1] already has. *)
Definition inner_setitem (k1 : string) (d : dict Z) (k2 : string) (v : Z)
  : M unit :=
  adj <- read adjacency_list ;;
  write_adjacency (Dict.set k1 (Dict.set k2 v d) adj).

(** [self.product_frequency[item] += 1] *)
Definition frequency_incr (item : string) : M unit :=
  c <- read product_frequency ;;
  write_frequency (Counter.add item 1 c).

(** ** [WeightedUndirectedGraph] *)

Definition _init_product_categories : dict string :=
  [ ("whole milk", "dairy"); ("yogurt", "dairy");
    ("whipped/sour cream", "dairy"); ("butter", "dairy"); ("cheese", "dairy");
    ("other vegetables", "vegetables"); ("root vegetables", "vegetables");
    ("carrots", "vegetables"); ("tomatoes", "vegetables");
    ("tropical fruit", "fruits"); ("pip fruit", "fruits");
    ("citrus fruit", "fruits"); ("grapes", "fruits"); ("berries", "fruits");
    ("rolls/buns", "bakery"); ("brown bread", "bakery");
    ("white bread", "bakery"); ("pastry", "bakery");
    ("soda", "drinks"); ("bottled water", "drinks"); ("canned beer", "drinks");
    ("bottled beer", "drinks"); ("coffee", "drinks"); ("tea", "drinks");
    ("sausage", "meat"); ("frankfurter", "meat"); ("pork", "meat");
    ("beef", "meat"); ("chicken", "meat") ].

(** [__init__] *)
Definition init : Graph :=
  mkGraph Dict.empty Dict.empty _init_product_categories.

(** The two-branch update of one directed edge in [add_transaction]:
    [if b in adj[a]: adj[a][b] += 1 else: adj[a][b] = 1]. *)
Definition update_edge (a b : string) : M unit :=
  d <- adjacency_getitem a ;;
  if Dict.contains b d then
    d' <- adjacency_getitem a ;;
    v <- dict_getitem b d' ;;
    inner_setitem a d' b (v + 1)
  else
    d' <- adjacency_getitem a ;;
    inner_setitem a d' b 1.

Definition add_transaction (items : list string) : M unit :=
  if (List.length items <? 2)%nat then
    for_each items frequency_incr
  else
    for_each items frequency_incr ;;
    let sorted_items := sorted_str items in
    for_each (range 0 (List.length sorted_items)) (fun i =>
      item1 <- list_getitem sorted_items i ;;
      for_each (range (i + 1) (List.length sorted_items)) (fun j =>
        item2 <- list_getitem sorted_items j ;;
        update_edge item1 item2 ;;
        update_edge item2 item1)).

Definition get_top_co_purchase (target_product : string) (top_n : Z)
  : M (list (string * Z)) :=
  known <- adjacency_contains target_product ;;
  if negb known then ret []
  else
    d <- adjacency_getitem target_product ;;
    let co_purchase_items := sorted_by_count_desc (items d) in
    ret (slice_to top_n co_purchase_items).

(** [tuple(sorted([item1, item2]))] *)
Definition sorted_pair (item1 item2 : string) : string * string :=
  match sorted_str [item1; item2] with
  | [x; y] => (x, y)
  | _ => (item1, item2)
  end.

Definition pair_eqb (p q : string * string) : bool :=
  String.eqb (fst p) (fst q) && String.eqb (snd p) (snd q).

(** [pair in processed_pairs] *)
Definition pair_in (p : string * string) (s : list (string * string)) : bool :=
  existsb (pair_eqb p) s.

(** The two local variables of [get_top3_product_pairs]; the set is
    only asked for membership, so a list stands for it. *)
Record pairs_acc : Type := mkAcc {
  all_pairs : list ((string * string) * Z);
  processed_pairs : list (string * string)
}.

Definition visit_pair (item1 : string) (acc : pairs_acc) (nb : string * Z)
  : pairs_acc :=
  let pair := sorted_pair item1 (fst nb) in
  if pair_in pair (processed_pairs acc) then acc
  else mkAcc (all_pairs acc ++ [(pair, snd nb)]) (pair :: processed_pairs acc).

Definition visit_item (acc : pairs_acc) (entry : string * dict Z) : pairs_acc :=
  fold_left (visit_pair (fst entry)) (items (snd entry)) acc.

Definition collect_pairs (adj : dict (dict Z)) : pairs_acc :=
  fold_left visit_item (items adj) (mkAcc [] []).

Definition get_top3_product_pairs : M (list ((string * string) * Z)) :=
  adj <- read adjacency_list ;;
  let all_pairs_sorted := sorted_by_count_desc (all_pairs (collect_pairs adj)) in
  ret (slice_to 3 all_pairs_sorted).

Definition check_co_purchase_relation (item1 item2 : string) : M Z :=
  known <- adjacency_contains item1 ;;
  if known then
    d <- adjacency_getitem item1 ;;
    if Dict.contains item2 d then
      d' <- adjacency_getitem item1 ;;
      dict_getitem item2 d'
    else ret 0
  else ret 0.

(** [[p for p, cat in self.product_categories.items() if cat == category]] *)
Definition category_products_of (cats : dict string) (category : string)
  : list string :=
  map fst (filter (fun pc => String.eqb (snd pc) category) (items cats)).

Definition filter_by_category (category : string) : M (dict (dict Z)) :=
  cats <- read product_categories ;;
  let category_products := category_products_of cats category in
  match category_products with
  | [] => ret Dict.empty
  | _ =>
    for_fold category_products (fun filtered_adj product =>
      known <- adjacency_contains product ;;
      if known then
        d <- adjacency_getitem product ;;
        let filtered_neighbors :=
          Dict.of_items
            (filter (fun nc => str_in (fst nc) category_products) (items d)) in
        match filtered_neighbors with
        | [] => ret filtered_adj
        | _ => ret (Dict.set product filtered_neighbors filtered_adj)
        end
      else ret filtered_adj) Dict.empty
  end.

Definition score_neighbor (input_products : list string)
  (scores : Counter.counter) (nc : string * Z) : Counter.counter :=
  if negb (str_in (fst nc) input_products)
  then Counter.add (fst nc) (snd nc) scores
  else scores.

Definition get_recommendation (input_products : list string) (top_n : Z)
  : M (list (string * Z)) :=
  recommendation_scores <-
    for_fold input_products (fun scores product =>
      known <- adjacency_contains product ;;
      if known then
        d <- adjacency_getitem product ;;
        ret (fold_left (score_neighbor input_products) (items d) scores)
      else ret scores) Dict.empty ;;
  ret (most_common top_n recommendation_scores).

(** ** Running a program *)

Definition state_of {A : Type} (o : outcome A) : Graph :=
  match o with Ok _ g => g | Raise _ g => g end.

Definition value_of {A : Type} (o : outcome A) : option A :=
  match o with Ok a _ => Some a | Raise _ _ => None end.

(** The graph after ingesting the transactions one after the other. *)
Definition ingest (txs : list (list string)) (g : Graph) : Graph :=
  fold_left (fun g t => state_of (add_transaction t g)) txs g.

Definition test_transactions : list (list string) :=
  [ ["whole milk"; "other vegetables"; "rolls/buns"];
    ["whole milk"; "yogurt"];
    ["other vegetables"; "rolls/buns"; "soda"];
    ["whole milk"; "other vegetables"];
    ["yogurt"; "whole milk"; "soda"];
    ["bread"] ].

Definition test_graph : Graph := ingest test_transactions init.

(** ** Views of the state used in the statements *)

(** [adj[a][b]] in a nested dictionary, when both subscripts are defined. *)
Definition lookup2 (adj : dict (dict Z)) (a b : string) : option Z :=
  match Dict.get a adj with
  | Some d => Dict.get b d
  | None => None
  end.

Definition or_zero (o : option Z) : Z :=
  match o with Some v => v | None => 0 end.

(** [coPurchase[a][b]], when it is defined. *)
Definition co (g : Graph) (a b : string) : option Z :=
  lookup2 (adjacency_list g) a b.

(** The recorded count, 0 when there is none. *)
Definition weight (g : Graph) (a b : string) : Z := or_zero (co g a b).

(** [frequency[a]] *)
Definition freq (g : Graph) (a : string) : Z :=
  Counter.get a (product_frequency g).

(** Number of occurrences of an item in a transaction. *)
Definition occurrences (a : string) (t : list string) : Z :=
  Z.of_nat (count_occ string_dec t a).

(** How often [add_transaction t] increments [coPurchase[a][b]]. *)
Definition increments (t : list string) (a b : string) : Z :=
  occurrences a t * occurrences b t
  - (if String.eqb a b then occurrences a t else 0).

(** ** Effect of the loops of [add_transaction] as state transformers *)

Definition with_adjacency (adj : dict (dict Z)) (g : Graph) : Graph :=
  mkGraph adj (product_frequency g) (product_categories g).

Definition with_frequency (c : Counter.counter) (g : Graph) : Graph :=
  mkGraph (adjacency_list g) c (product_categories g).

(** One run of [update_edge a b] on the adjacency list. *)
Definition bump (a b : string) (adj : dict (dict Z)) : dict (dict Z) :=
  let d := match Dict.get a adj with Some d => d | None => Dict.empty end in
  let v := match Dict.get b d with Some v => v + 1 | None => 1 end in
  Dict.set a (Dict.set b v d) adj.

Definition bump_both (adj : dict (dict Z)) (p : string * string)
  : dict (dict Z) :=
  bump (snd p) (fst p) (bump (fst p) (snd p) adj).

(** How often visiting the pair [p] bumps the directed edge [a -> b]. *)
Definition edge_hits (a b : string) (p : string * string) : Z :=
  (if String.eqb (fst p) a && String.eqb (snd p) b then 1 else 0)
  + (if String.eqb (snd p) a && String.eqb (fst p) b then 1 else 0).

Definition total_hits (a b : string) (ps : list (string * string)) : Z :=
  fold_right (fun p n => edge_hits a b p + n) 0 ps.

(** The pairs [(l[i], l[j])], [i < j], in the order the loops visit them. *)
Fixpoint pairs (l : list string) : list (string * string) :=
  match l with
  | [] => []
  | x :: r => map (pair x) r ++ pairs r
  end.

Definition index_pairs (l : list string) : list (string * string) :=
  flat_map (fun i =>
    map (fun j => (nth i l "", nth j l "")) (range (i + 1) (List.length l)))
    (range 0 (List.length l)).

Definition add_transaction_state (items : list string) (g : Graph) : Graph :=
  let g1 :=
    with_frequency
      (fold_left (fun c x => Counter.add x 1 c) items (product_frequency g)) g in
  if (List.length items <? 2)%nat then g1
  else
    with_adjacency
      (fold_left bump_both (pairs (sorted_str items)) (adjacency_list g1)) g1.

(** ** Results of the queries as functions of the state *)

Definition top_co_purchase_of (g : Graph) (target_product : string) (top_n : Z)
  : list (string * Z) :=
  match Dict.get target_product (adjacency_list g) with
  | Some d => slice_to top_n (sorted_by_count_desc (items d))
  | None => []
  end.

Definition top3_pairs_of (g : Graph) : list ((string * string) * Z) :=
  slice_to 3
    (sorted_by_count_desc (all_pairs (collect_pairs (adjacency_list g)))).

Definition filter_step (adj : dict (dict Z)) (category_products : list string)
  (filtered_adj : dict (dict Z)) (product : string) : dict (dict Z) :=
  match Dict.get product adj with
  | Some d =>
      match Dict.of_items
              (filter (fun nc => str_in (fst nc) category_products) (items d))
      with
      | [] => filtered_adj
      | e :: r => Dict.set product (e :: r) filtered_adj
      end
  | None => filtered_adj
  end.

Definition filter_by_category_of (g : Graph) (category : string)
  : dict (dict Z) :=
  let category_products :=
    category_products_of (product_categories g) category in
  fold_left (filter_step (adjacency_list g) category_products)
    category_products Dict.empty.

Definition scores_step (adj : dict (dict Z)) (input_products : list string)
  (scores : Counter.counter) (product : string) : Counter.counter :=
  match Dict.get product adj with
  | Some d => fold_left (score_neighbor input_products) (items d) scores
  | None => scores
  end.

Definition recommendation_scores_of (g : Graph) (input_products : list string)
  : Counter.counter :=
  fold_left (scores_step (adjacency_list g) input_products)
    input_products Dict.empty.

(** ** Well-formed and reachable states *)

(** Both levels of the adjacency list are dictionaries. *)
Definition adjacency_wf (adj : dict (dict Z)) : Prop :=
  Dict.wf adj /\ forall a d, In (a, d) adj -> Dict.wf d.

Definition symmetric (g : Graph) : Prop :=
  forall a b, co g a b = co g b a.

(** The entries [(item1, (item2, count))] of the adjacency list in the
    order the nested loops of [get_top3_product_pairs] meet them. *)
Definition entries (adj : dict (dict Z)) : list (string * (string * Z)) :=
  flat_map (fun e => map (pair (fst e)) (items (snd e))) (items adj).

Definition visit_entry (acc : pairs_acc) (e : string * (string * Z))
  : pairs_acc :=
  visit_pair (fst e) acc (snd e).

(** [adj'] has the keys of [adj] where they were, and possibly more
    after them, at both levels. *)
Definition extends (adj adj' : dict (dict Z)) : Prop :=
  (exists new, Dict.keys adj' = Dict.keys adj ++ new)
  /\ forall a d, Dict.get a adj = Some d ->
       exists d' new, Dict.get a adj' = Some d'
                      /\ Dict.keys d' = Dict.keys d ++ new.

(** The order of the sorted queries: [l] holds the entries [es] by
    descending count, and the entries of one count in the order they
    have in [es]. *)
Definition tie_ordered {K : Type} (es l : list (K * Z)) : Prop :=
  Permutation l es
  /\ StronglySorted (fun x y => snd y <= snd x) l
  /\ forall c, filter (fun x => snd x =? c) l
               = filter (fun x => snd x =? c) es.

(** ** The orders the specification asks for

    The specification wants ties between equal counts broken by the
    ascending order of the identifiers.  These definitions follow its
    words; they are compared with the code below. *)

Definition spec_before_neighbor (x y : string * Z) : bool :=
  (snd y <? snd x) || ((snd x =? snd y) && String.leb (fst x) (fst y)).

Definition spec_top_co_purchase (g : Graph) (target : string) (n : Z)
  : list (string * Z) :=
  match Dict.get target (adjacency_list g) with
  | Some d => firstn (Z.to_nat n) (stable_sort spec_before_neighbor (items d))
  | None => []
  end.

(** First member, then second member. *)
Definition pair_leb (p q : string * string) : bool :=
  String.ltb (fst p) (fst q)
  || (String.eqb (fst p) (fst q) && String.leb (snd p) (snd q)).

Definition spec_before_pair (x y : (string * string) * Z) : bool :=
  (snd y <? snd x) || ((snd x =? snd y) && pair_leb (fst x) (fst y)).

Definition spec_top_pairs (g : Graph) (k : Z) : list ((string * string) * Z) :=
  firstn (Z.to_nat k)
    (stable_sort spec_before_pair
       (all_pairs (collect_pairs (adjacency_list g)))).

Definition spec_recommend (g : Graph) (inputs : list string) (n : Z)
  : list (string * Z) :=
  firstn (Z.to_nat n)
    (stable_sort spec_before_neighbor
       (items (recommendation_scores_of g inputs))).

(** Graphs on which the insertion order is not the alphabetical one. *)
Definition tie_graph : Graph := ingest [["m"; "z"]; ["m"; "a"]] init.

Definition tie_pairs_graph : Graph := ingest [["m"; "z"]; ["a"; "b"]] init.

(** ** Counting over a sequence of transactions *)

Definition total_occurrences (a : string) (txs : list (list string)) : Z :=
  fold_right (fun t n => occurrences a t + n) 0 txs.

Definition total_increments (txs : list (list string)) (a b : string) : Z :=
  fold_right (fun t n => increments t a b + n) 0 txs.

(** Number of transactions that hold [a]; that hold both [a] and [b]. *)
Definition containing (a : string) (txs : list (list string)) : Z :=
  Z.of_nat (List.length (filter (fun t => str_in a t) txs)).

Definition containing_both (a b : string) (txs : list (list string)) : Z :=
  Z.of_nat (List.length (filter (fun t => str_in a t && str_in b t) txs)).

(** [self.product_categories.get(p) == c] *)
Definition in_category (g : Graph) (c p : string) : bool :=
  match Dict.get p (product_categories g) with
  | Some c' => String.eqb c' c
  | None => false
  end.

(** Sum of the counts recorded between the input products and [x]. *)
Definition total_weight (g : Graph) (inputs : list string) (x : string) : Z :=
  fold_right (fun p n => weight g p x + n) 0 inputs.

(** ** [load_supermarket_data] and the first part of [main]

    The loader opens the file and lets [csv.DictReader] cut it into
    rows; it is modelled from the rows on.  A row is a dictionary from
    column name to the text of the field, or to [None] for the columns
    that a record shorter than the header does not reach.  (The fields a
    longer record has in excess go under the key [None], which the
    loader never reads.)  An exception met in the loop is logged and
    raised again, so the result is the dictionary of transactions or the
    exception. *)

Definition res (A : Type) : Type := (exn + A)%type.

(** A value of a row: a text or [None]. *)
Abbreviation field := (option string).

Abbreviation row := (dict (option string)).

(** [row[k]] *)
Definition row_getitem (k : string) (r : row) : res field :=
  match Dict.get k r with
  | Some v => inr v
  | None => inl (KeyError k)
  end.

(** [f"{v}"]: a text as it is, [None] as the text ["None"]. *)
Definition format_field (v : field) : string :=
  match v with
  | Some text => text
  | None => "None"
  end.

(** [transactions[tid]] on a [defaultdict(list)]: the list found, or a
    new empty list that is stored under the key. *)
Definition transactions_getitem (tid : string)
  (transactions : dict (list string)) : list string * dict (list string) :=
  match Dict.get tid transactions with
  | Some l => (l, transactions)
  | None => ([], Dict.set tid [] transactions)
  end.

(** [f"{member_id}_{date}"] *)
Definition transaction_id_of (member_id date : string) : string :=
  String.append member_id (String.append "_" date).

(** What one row does to the transactions: the item goes to the end of
    the list of its transaction unless it is there already. *)
Definition add_item (transactions : dict (list string)) (tid item : string)
  : dict (list string) :=
  match Dict.get tid transactions with
  | Some l =>
      if str_in item l then transactions
      else Dict.set tid (l ++ [item]) transactions
  | None => Dict.set tid [item] transactions
  end.

(** [x] is an item of the transaction [tid]. *)
Definition holds (transactions : dict (list string)) (tid x : string) : Prop :=
  exists l, Dict.get tid transactions = Some l /\ In x l.

Section Loader.

(** [str.strip()], a built-in: its table of white space is no part of
    the repository. *)
Variable strip : string -> string.

(** [v.strip()]: [None] has no such method. *)
Definition field_strip (v : field) : res string :=
  match v with
  | Some text => inr (strip text)
  | None => inl AttributeError
  end.

(** The body of the loop over the rows. *)
Definition load_row (transactions : dict (list string)) (r : row)
  : res (dict (list string)) :=
  match row_getitem "Member_number" r with
  | inl e => inl e
  | inr member_id =>
    match row_getitem "Date" r with
    | inl e => inl e
    | inr date =>
      match row_getitem "itemDescription" r with
      | inl e => inl e
      | inr description =>
        match field_strip description with
        | inl e => inl e
        | inr item =>
          let transaction_id :=
            transaction_id_of (format_field member_id) (format_field date) in
          let (l, transactions1) :=
            transactions_getitem transaction_id transactions in
          if negb (str_in item l) then
            let (l', transactions2) :=
              transactions_getitem transaction_id transactions1 in
            inr (Dict.set transaction_id (l' ++ [item]) transactions2)
          else inr transactions1
        end
      end
    end
  end.

Fixpoint load_rows (rows : list row)
  (transactions : dict (list string)) : res (dict (list string)) :=
  match rows with
  | [] => inr transactions
  | r :: rest =>
      match load_row transactions r with
      | inl e => inl e
      | inr transactions' => load_rows rest transactions'
      end
  end.

Definition load_supermarket_data (rows : list row)
  : res (dict (list string)) :=
  load_rows rows Dict.empty.

(** [for trans_id, items in transactions.items():
       graph.add_transaction(items)] *)
Definition build_graph (transactions : dict (list string)) : M unit :=
  for_each (items transactions) (fun kv => add_transaction (snd kv)).

(** [main] up to the menu: the graph the menu works on, or nothing when
    an exception made [main] print the failure and return. *)
Definition main_build (rows : list row) : option Graph :=
  match load_supermarket_data rows with
  | inr transactions =>
      match build_graph transactions init with
      | Ok _ graph => Some graph
      | Raise _ _ => None
      end
  | inl _ => None
  end.

(** The row stands for item [x] in transaction [tid]. *)
Definition row_gives (r : row) (tid x : string) : Prop :=
  exists member_id date description,
    Dict.get "Member_number" r = Some member_id
    /\ Dict.get "Date" r = Some date
    /\ Dict.get "itemDescription" r = Some (Some description)
    /\ tid = transaction_id_of (format_field member_id) (format_field date)
    /\ x = strip description.

End Loader.

(** The row has the three columns the loader reads, and a text as
    item description. *)
Definition row_loadable (r : row) : Prop :=
  exists member_id date description,
    Dict.get "Member_number" r = Some member_id
    /\ Dict.get "Date" r = Some date
    /\ Dict.get "itemDescription" r = Some (Some description).

(** The exception a row that is not loadable makes the loader raise:
    the [KeyError] of the first column it lacks, in the order the loader
    reads them, or the [AttributeError] of stripping [None]. *)
Definition row_error (r : row) (e : exn) : Prop :=
  match Dict.get "Member_number" r with
  | None => e = KeyError "Member_number"
  | Some _ =>
      match Dict.get "Date" r with
      | None => e = KeyError "Date"
      | Some _ =>
          match Dict.get "itemDescription" r with
          | None => e = KeyError "itemDescription"
          | Some None => e = AttributeError
          | Some (Some _) => False
          end
      end
  end.

(** Three rows of one member on one day, one product twice. *)
Definition sample_rows : list row :=
  [ [("Member_number", Some "1808"); ("Date", Some "21-07-2015");
     ("itemDescription", Some "tropical fruit")];
    [("Member_number", Some "1808"); ("Date", Some "21-07-2015");
     ("itemDescription", Some "whole milk")];
    [("Member_number", Some "1808"); ("Date", Some "21-07-2015");
     ("itemDescription", Some "tropical fruit")] ].

(** A record that stops after the date. *)
Definition short_record : row :=
  [("Member_number", Some "1808"); ("Date", Some "21-07-2015");
   ("itemDescription", None)].

Definition sample_transactions : dict (list string) :=
  [("1808_21-07-2015", ["tropical fruit"; "whole milk"])].

(** ** Order of first meeting *)

(** [x] stands somewhere in front of [y] in [l]. *)
Definition before {A : Type} (x y : A) (l : list A) : Prop :=
  exists l1 l2 l3, l = l1 ++ x :: l2 ++ y :: l3.

(** [i] is the first place of [x] in [l]. *)
Definition first_met {A : Type} (l : list A) (x : A) (i : nat) : Prop :=
  nth_error l i = Some x /\ forall j, (j < i)%nat -> nth_error l j <> Some x.

(** The unordered pair an entry of the adjacency list stands for, and
    the pairs in the order the walk over the adjacency list meets them:
    the keys in the order of the dictionary, under each key its
    neighbours in the order of its dictionary.  Each pair comes up twice
    or more. *)
Definition pair_of_entry (e : string * (string * Z)) : string * string :=
  sorted_pair (fst e) (fst (snd e)).

Definition walk_pairs (adj : dict (dict Z)) : list (string * string) :=
  map pair_of_entry (entries adj).

(** The neighbours met by walking the input products in the order
    given, and under each its neighbour dictionary, the input products
    themselves left out.  A product comes up once for each input product
    it is a neighbour of. *)
Definition candidates (g : Graph) (inputs : list string) : list string :=
  filter (fun x => negb (str_in x inputs))
    (flat_map (fun p => match Dict.get p (adjacency_list g) with
                        | Some d => Dict.keys d
                        | None => []
                        end) inputs).

Section FirstOccurrences.

Context {K : Type} (eq_dec : forall x y : K, {x = y} + {x <> y}).

Definition append_new (ks : list K) (k : K) : list K :=
  if in_dec eq_dec k ks then ks else ks ++ [k].

(** The elements of [l], each at the place of its first occurrence. *)
Definition first_occurrences (l : list K) : list K :=
  fold_left append_new l [].

End FirstOccurrences.

Definition pair_dec (p q : string * string) : {p = q} + {p <> q}.
Proof. decide equality; apply string_dec. Defined.

(** ** Runs

    A run makes a new graph, ingests the transactions one after the
    other and calls the query. *)
Inductive runs_to {A : Type} (txs : list (list string)) (query : M A)
  : outcome A -> Prop :=
| runs_to_intro (g : Graph) (o : outcome A) :
    for_each txs add_transaction init = Ok tt g ->
    query g = o ->
    runs_to txs query o.

(** ** Ties by the order of first ingestion

    Another reading of the order of ties between pairs: the order in
    which the pairs are first ingested.  It is compared with the code
    below. *)
Definition inserted_pairs (txs : list (list string))
  : list (string * string) :=
  first_occurrences pair_dec (flat_map (fun t => pairs (sorted_str t)) txs).

Definition spec_top_pairs_by_insertion (txs : list (list string))
  : list ((string * string) * Z) :=
  firstn 3
    (sorted_by_count_desc
       (map (fun p => (p, weight (ingest txs init) (fst p) (snd p)))
          (inserted_pairs txs))).

(** Four pairs of count 1; the last one ingested joins two products
    that are early keys of the adjacency list. *)
Definition walk_order_transactions : list (list string) :=
  [["a"; "b"]; ["c"; "d"]; ["e"; "f"]; ["a"; "c"]].

(** * Properties *)

(** ** Dictionaries *)

Module DictFacts.

Section WithValue.

Context {V : Type}.
Implicit Types (d : dict V) (k : string) (v : V).

Lemma get_set_same k v d : Dict.get k (Dict.set k v d) = Some v.
Proof.
  induction d as [|[k' v'] r IH]; simpl.
  - now rewrite String.eqb_refl.
  - destruct (String.eqb k' k) eqn:E; simpl; rewrite E; auto.
Qed.

Lemma get_set_other k k' v d :
  k' <> k -> Dict.get k' (Dict.set k v d) = Dict.get k' d.
Proof.
  intros Hne. induction d as [|[k0 v0] r IH]; simpl.
  - destruct (String.eqb k k') eqn:E; auto.
    apply String.eqb_eq in E. congruence.
  - destruct (String.eqb k0 k) eqn:E; simpl.
    + apply String.eqb_eq in E. subst k0.
      destruct (String.eqb k k') eqn:E'; auto.
      apply String.eqb_eq in E'. congruence.
    + now rewrite IH.
Qed.

Lemma get_set k k' v d :
  Dict.get k' (Dict.set k v d)
  = if String.eqb k' k then Some v else Dict.get k' d.
Proof.
  destruct (String.eqb k' k) eqn:E.
  - apply String.eqb_eq in E. subst. apply get_set_same.
  - apply String.eqb_neq in E. now apply get_set_other.
Qed.

Lemma contains_get k d :
  Dict.contains k d
  = match Dict.get k d with Some _ => true | None => false end.
Proof.
  induction d as [|[k' v'] r IH]; simpl; auto.
  destruct (String.eqb k' k); auto.
Qed.

Lemma set_set k v v' d : Dict.set k v (Dict.set k v' d) = Dict.set k v d.
Proof.
  induction d as [|[k0 v0] r IH]; simpl.
  - now rewrite String.eqb_refl.
  - destruct (String.eqb k0 k) eqn:E; simpl; rewrite E; auto.
    now rewrite IH.
Qed.

Lemma get_In k v d : Dict.get k d = Some v -> In (k, v) d.
Proof.
  induction d as [|[k0 v0] r IH]; simpl; try discriminate.
  destruct (String.eqb k0 k) eqn:E.
  - apply String.eqb_eq in E. intros [= ->]. left. congruence.
  - auto.
Qed.

Lemma In_get k v d : Dict.wf d -> In (k, v) d -> Dict.get k d = Some v.
Proof.
  unfold Dict.wf, Dict.keys.
  induction d as [|[k0 v0] r IH]; simpl; intros Hnd Hin; [tauto|].
  inversion Hnd as [|? ? Hni Hnd']; subst.
  destruct Hin as [[= -> ->]|Hin].
  - now rewrite String.eqb_refl.
  - destruct (String.eqb k0 k) eqn:E; auto.
    apply String.eqb_eq in E. subst k0.
    exfalso. apply Hni. now apply (in_map fst) in Hin.
Qed.

Lemma get_None_keys k d : Dict.get k d = None <-> ~ In k (Dict.keys d).
Proof.
  unfold Dict.keys.
  induction d as [|[k0 v0] r IH]; simpl; [tauto|].
  destruct (String.eqb k0 k) eqn:E.
  - apply String.eqb_eq in E. split; [discriminate|tauto].
  - apply String.eqb_neq in E. rewrite IH. tauto.
Qed.

(** A store keeps the keys in place and puts a new key last. *)
Lemma keys_set k v d :
  Dict.keys (Dict.set k v d)
  = if Dict.contains k d then Dict.keys d else Dict.keys d ++ [k].
Proof.
  unfold Dict.keys.
  induction d as [|[k0 v0] r IH]; simpl; auto.
  destruct (String.eqb k0 k) eqn:E; simpl; auto.
  rewrite IH. now destruct (Dict.contains k r).
Qed.

Lemma wf_set k v d : Dict.wf d -> Dict.wf (Dict.set k v d).
Proof.
  unfold Dict.wf. intros Hwf. rewrite keys_set.
  destruct (Dict.contains k d) eqn:E; auto.
  rewrite contains_get in E.
  destruct (Dict.get k d) eqn:G; try discriminate.
  apply get_None_keys in G.
  apply NoDup_rev in Hwf.
  rewrite <- (rev_involutive (Dict.keys d ++ [k])).
  apply NoDup_rev. rewrite rev_app_distr. simpl.
  constructor; auto. now rewrite <- in_rev.
Qed.

Lemma In_set k v k' v' d :
  In (k', v') (Dict.set k v d) -> (k' = k /\ v' = v) \/ In (k', v') d.
Proof.
  induction d as [|[k0 v0] r IH]; simpl.
  - intros [[= <- <-]|[]]. auto.
  - destruct (String.eqb k0 k) eqn:E; simpl.
    + apply String.eqb_eq in E. subst k0.
      intros [[= <- <-]|H]; auto.
    + intros [H|H]; auto. apply IH in H. tauto.
Qed.

Lemma In_of_items_aux k v (l : list (string * V)) d :
  In (k, v) (fold_left (fun d kv => Dict.set (fst kv) (snd kv) d) l d) ->
  In (k, v) d \/ In (k, v) l.
Proof.
  revert d. induction l as [|[k0 v0] l IH]; simpl; intros d H; auto.
  apply IH in H. destruct H as [H|H]; auto.
  apply In_set in H. destruct H as [[-> ->]|H]; auto.
Qed.

Lemma In_of_items k v (l : list (string * V)) :
  In (k, v) (Dict.of_items l) -> In (k, v) l.
Proof.
  unfold Dict.of_items. intros H.
  apply In_of_items_aux in H. destruct H as [[]|H]. exact H.
Qed.

End WithValue.

End DictFacts.

Import DictFacts.

(** ** The stable sort *)

Section SortFacts.

Context {A : Type}.
Variable before : A -> A -> bool.

Lemma insert_stable_perm x l :
  Permutation (insert_stable before x l) (x :: l).
Proof.
  induction l as [|y r IH]; simpl; auto.
  destruct (before x y); auto.
  rewrite IH. apply perm_swap.
Qed.

Lemma stable_sort_perm l : Permutation (stable_sort before l) l.
Proof.
  induction l as [|x r IH]; simpl; auto.
  rewrite insert_stable_perm. now constructor.
Qed.

Lemma stable_sort_length l : List.length (stable_sort before l) = List.length l.
Proof. apply Permutation_length, stable_sort_perm. Qed.

Lemma stable_sort_In x l : In x (stable_sort before l) <-> In x l.
Proof.
  split; apply Permutation_in;
    [apply stable_sort_perm | apply Permutation_sym, stable_sort_perm].
Qed.

Hypothesis before_total : forall x y, before x y = false -> before y x = true.
Hypothesis before_trans :
  forall x y z, before x y = true -> before y z = true -> before x z = true.

Lemma insert_stable_sorted x l :
  StronglySorted (fun a b => before a b = true) l ->
  StronglySorted (fun a b => before a b = true) (insert_stable before x l).
Proof.
  induction 1 as [|y r Hs IH Hall]; simpl.
  - repeat constructor.
  - destruct (before x y) eqn:E.
    + constructor; [now constructor|].
      constructor; auto.
      eapply Forall_impl; [|exact Hall]. intros; eauto.
    + constructor; auto.
      apply before_total in E.
      rewrite Forall_forall in *. intros z Hz.
      apply (Permutation_in _ (insert_stable_perm x r)) in Hz.
      destruct Hz as [<-|Hz]; auto.
Qed.

Lemma stable_sort_sorted l :
  StronglySorted (fun a b => before a b = true) (stable_sort before l).
Proof.
  induction l as [|x r IH]; simpl; [constructor|].
  now apply insert_stable_sorted.
Qed.

(** Stability: a class of elements none of which has to come after
    another keeps the order it has in the input. *)
Variable P : A -> bool.
Hypothesis P_tied :
  forall x y, P x = true -> P y = true -> before x y = true.

Lemma insert_stable_filter x l :
  filter P (insert_stable before x l) = filter P (x :: l).
Proof.
  induction l as [|y r IH]; simpl; auto.
  destruct (before x y) eqn:E; simpl; auto.
  simpl in IH. rewrite IH.
  destruct (P x) eqn:Px; auto.
  destruct (P y) eqn:Py; auto.
  rewrite (P_tied x y Px Py) in E. discriminate.
Qed.

Lemma stable_sort_filter l : filter P (stable_sort before l) = filter P l.
Proof.
  induction l as [|x r IH]; simpl; auto.
  rewrite insert_stable_filter. simpl. now rewrite IH.
Qed.

End SortFacts.

Lemma strongly_sorted_weaken {A : Type} (R R' : A -> A -> Prop) l :
  (forall x y, R x y -> R' x y) -> StronglySorted R l -> StronglySorted R' l.
Proof.
  intros Himp. induction 1 as [|x r Hs IH Hall]; constructor; auto.
  eapply Forall_impl; [|exact Hall]. auto.
Qed.

(** What the result of [sorted(l, key=count, reverse=True)] is: the
    entries of [l], counts descending, each class of equal counts in the
    order it has in [l]. *)
Lemma sorted_by_count_desc_spec {K : Type} (l : list (K * Z)) :
  Permutation (sorted_by_count_desc l) l
  /\ StronglySorted (fun x y => snd y <= snd x) (sorted_by_count_desc l)
  /\ forall c, filter (fun x => snd x =? c) (sorted_by_count_desc l)
               = filter (fun x => snd x =? c) l.
Proof.
  unfold sorted_by_count_desc. split; [apply stable_sort_perm|]. split.
  - apply (strongly_sorted_weaken (fun x y : K * Z => (snd y <=? snd x) = true)).
    + intros x y H. now apply Z.leb_le.
    + apply stable_sort_sorted.
      * intros x y H. apply Z.leb_gt in H. apply Z.leb_le. lia.
      * intros x y z H1 H2. apply Z.leb_le in H1, H2. apply Z.leb_le. lia.
  - intros c. apply stable_sort_filter.
    intros x y Hx Hy. apply Z.eqb_eq in Hx, Hy. apply Z.leb_le. lia.
Qed.

Lemma sorted_by_count_desc_tie_ordered {K : Type} (l : list (K * Z)) :
  tie_ordered l (sorted_by_count_desc l).
Proof. apply sorted_by_count_desc_spec. Qed.

(** The three properties leave no freedom: whatever algorithm sorts
    stably by descending count gives this list. *)
Lemma desc_stable_unique {K : Type} (l1 : list (K * Z)) : forall l2,
  StronglySorted (fun x y => snd y <= snd x) l1 ->
  StronglySorted (fun x y => snd y <= snd x) l2 ->
  (forall c, filter (fun x => snd x =? c) l1
             = filter (fun x => snd x =? c) l2) ->
  l1 = l2.
Proof.
  induction l1 as [|x r1 IH]; intros [|y r2] H1 H2 Hf; auto.
  - specialize (Hf (snd y)). simpl in Hf.
    rewrite Z.eqb_refl in Hf. discriminate.
  - specialize (Hf (snd x)). simpl in Hf.
    rewrite Z.eqb_refl in Hf. discriminate.
  - apply StronglySorted_inv in H1, H2.
    destruct H1 as [H1 A1], H2 as [H2 A2].
    rewrite Forall_forall in A1, A2.
    assert (Hxy : snd x = snd y).
    { assert (Hy : In y (x :: r1)).
      { pose proof (Hf (snd y)) as E. simpl in E.
        rewrite (Z.eqb_refl (snd y)) in E.
        assert (Hin : In y (filter (fun z => snd z =? snd y) (x :: r1))).
        { simpl. rewrite E. now left. }
        now apply filter_In in Hin. }
      assert (Hx : In x (y :: r2)).
      { pose proof (Hf (snd x)) as E. simpl in E.
        rewrite (Z.eqb_refl (snd x)) in E.
        assert (Hin : In x (filter (fun z => snd z =? snd x) (y :: r2))).
        { simpl. rewrite <- E. now left. }
        now apply filter_In in Hin. }
      assert (snd y <= snd x) by (destruct Hy as [->|Hy]; [lia|auto]).
      assert (snd x <= snd y) by (destruct Hx as [->|Hx]; [lia|auto]).
      lia. }
    assert (x = y).
    { pose proof (Hf (snd x)) as E. simpl in E.
      rewrite <- Hxy, Z.eqb_refl in E. congruence. }
    subst y. f_equal. apply IH; auto.
    intros c. specialize (Hf c). simpl in Hf.
    destruct (snd x =? c); congruence.
Qed.

(** ** Running the loops of [add_transaction] *)

Lemma with_adjacency_id g : with_adjacency (adjacency_list g) g = g.
Proof. now destruct g. Qed.

Lemma with_frequency_id g : with_frequency (product_frequency g) g = g.
Proof. now destruct g. Qed.

Lemma for_each_app {A : Type} (l1 l2 : list A) body g :
  for_each (l1 ++ l2) body g
  = match for_each l1 body g with
    | Ok _ g' => for_each l2 body g'
    | Raise e g' => Raise e g'
    end.
Proof.
  revert g. induction l1 as [|x r IH]; simpl; intros g; auto.
  unfold bind. destruct (body x g); auto.
Qed.

(** A loop whose body rewrites the adjacency list by a fold does the
    folds one after the other. *)
Lemma for_each_adjacency {A B : Type} (f : dict (dict Z) -> B -> dict (dict Z))
  (h : A -> list B) (l : list A) (body : A -> M unit) :
  (forall x, In x l -> forall g,
     body x g = Ok tt (with_adjacency (fold_left f (h x) (adjacency_list g)) g)) ->
  forall g,
    for_each l body g
    = Ok tt (with_adjacency (fold_left f (flat_map h l) (adjacency_list g)) g).
Proof.
  induction l as [|x r IH]; simpl; intros Hbody g.
  - unfold ret. now rewrite with_adjacency_id.
  - unfold bind. rewrite Hbody by auto.
    rewrite IH by auto. simpl. now rewrite fold_left_app.
Qed.

Lemma frequency_loop_run items g :
  for_each items frequency_incr g
  = Ok tt (with_frequency
             (fold_left (fun c x => Counter.add x 1 c) items
                (product_frequency g)) g).
Proof.
  revert g. induction items as [|x r IH]; simpl; intros g.
  - unfold ret. now rewrite with_frequency_id.
  - unfold bind. unfold frequency_incr at 1. unfold bind, read, write_frequency.
    rewrite IH. reflexivity.
Qed.

Lemma update_edge_run a b g :
  update_edge a b g = Ok tt (with_adjacency (bump a b (adjacency_list g)) g).
Proof.
  unfold update_edge, bump, adjacency_getitem, inner_setitem, dict_getitem,
    bind, read, ret, write_adjacency, with_adjacency.
  destruct (Dict.get a (adjacency_list g)) as [d|] eqn:Ga; simpl.
  - rewrite contains_get.
    destruct (Dict.get b d) as [v|] eqn:Gb; simpl; rewrite Ga; simpl;
      rewrite ?Gb; reflexivity.
  - rewrite get_set_same. simpl. now rewrite set_set.
Qed.

Lemma nth_error_nth_default (l : list string) i :
  (i < List.length l)%nat -> nth_error l i = Some (nth i l "").
Proof.
  revert i. induction l as [|x r IH]; simpl; intros i Hi; [lia|].
  destruct i; simpl; auto. apply IH. lia.
Qed.

Lemma in_range i a b : In i (range a b) -> (a <= i < b)%nat.
Proof. unfold range. rewrite in_seq. lia. Qed.

Lemma flat_map_singleton {A B : Type} (p : A -> B) l :
  flat_map (fun x => [p x]) l = map p l.
Proof. induction l; simpl; congruence. Qed.

Lemma pair_loops_run (s : list string) g :
  for_each (range 0 (List.length s)) (fun i =>
    item1 <- list_getitem s i ;;
    for_each (range (i + 1) (List.length s)) (fun j =>
      item2 <- list_getitem s j ;;
      update_edge item1 item2 ;;
      update_edge item2 item1)) g
  = Ok tt (with_adjacency
             (fold_left bump_both (index_pairs s) (adjacency_list g)) g).
Proof.
  unfold index_pairs.
  apply for_each_adjacency. intros i Hi g'.
  apply in_range in Hi.
  unfold bind at 1, list_getitem at 1.
  rewrite nth_error_nth_default by lia. unfold ret at 1.
  rewrite <- flat_map_singleton.
  apply for_each_adjacency. intros j Hj g''.
  apply in_range in Hj.
  unfold bind at 1, list_getitem at 1.
  rewrite nth_error_nth_default by lia. unfold ret at 1.
  unfold bind. rewrite update_edge_run. rewrite update_edge_run.
  reflexivity.
Qed.

Lemma map_nth_seq (r : list string) :
  map (fun j => nth j r "") (seq 0 (List.length r)) = r.
Proof.
  induction r as [|x r IH]; simpl; auto.
  rewrite <- seq_shift, map_map. simpl. now rewrite IH.
Qed.

Lemma index_pairs_eq s : index_pairs s = pairs s.
Proof.
  unfold index_pairs, range.
  induction s as [|x r IH]; auto.
  cbn [List.length pairs].
  replace (S (List.length r) - 0)%nat with (S (List.length r)) by lia.
  rewrite Nat.sub_0_r in IH.
  cbn [seq flat_map]. f_equal.
  - replace (S (List.length r) - (0 + 1))%nat with (List.length r) by lia.
    cbn [Nat.add]. rewrite <- seq_shift, map_map. cbn [nth].
    rewrite <- (map_nth_seq r) at 2. now rewrite map_map.
  - rewrite <- IH, <- seq_shift.
    rewrite flat_map_concat_map, map_map, <- flat_map_concat_map.
    apply flat_map_ext. intros i.
    replace (S (List.length r) - (S i + 1))%nat
      with (List.length r - (i + 1))%nat by lia.
    replace (S i + 1)%nat with (S (i + 1)) by lia.
    rewrite <- seq_shift, map_map. reflexivity.
Qed.

Theorem add_transaction_run items g :
  add_transaction items g = Ok tt (add_transaction_state items g).
Proof.
  unfold add_transaction, add_transaction_state.
  destruct (List.length items <? 2)%nat.
  - apply frequency_loop_run.
  - unfold bind at 1. rewrite frequency_loop_run.
    rewrite pair_loops_run. now rewrite index_pairs_eq.
Qed.

(** ** What one transaction does to the counts *)

Lemma lookup2_bump x y adj a b :
  lookup2 (bump x y adj) a b
  = if String.eqb x a && String.eqb y b
    then Some (or_zero (lookup2 adj a b) + 1)
    else lookup2 adj a b.
Proof.
  unfold lookup2, bump. rewrite get_set.
  destruct (String.eqb a x) eqn:Eax.
  - apply String.eqb_eq in Eax. subst a. rewrite String.eqb_refl. simpl.
    rewrite get_set. rewrite (String.eqb_sym b y).
    destruct (String.eqb y b) eqn:Eyb.
    + apply String.eqb_eq in Eyb. subst b.
      destruct (Dict.get x adj) as [d|]; simpl.
      * destruct (Dict.get y d); simpl; f_equal; lia.
      * reflexivity.
    + destruct (Dict.get x adj); reflexivity.
  - rewrite String.eqb_sym in Eax. now rewrite Eax.
Qed.

Lemma edge_hits_nonneg a b p : 0 <= edge_hits a b p.
Proof.
  unfold edge_hits.
  destruct (String.eqb (fst p) a && String.eqb (snd p) b);
    destruct (String.eqb (snd p) a && String.eqb (fst p) b); lia.
Qed.

Lemma total_hits_nonneg a b ps : 0 <= total_hits a b ps.
Proof.
  induction ps as [|p r IH]; simpl; [lia|].
  pose proof (edge_hits_nonneg a b p). lia.
Qed.

Lemma total_hits_app a b ps qs :
  total_hits a b (ps ++ qs) = total_hits a b ps + total_hits a b qs.
Proof. induction ps as [|p r IH]; simpl; lia. Qed.

Lemma lookup2_bump_both adj p a b :
  lookup2 (bump_both adj p) a b
  = if edge_hits a b p =? 0 then lookup2 adj a b
    else Some (or_zero (lookup2 adj a b) + edge_hits a b p).
Proof.
  unfold bump_both, edge_hits. rewrite !lookup2_bump.
  destruct (String.eqb (fst p) a && String.eqb (snd p) b);
    destruct (String.eqb (snd p) a && String.eqb (fst p) b); simpl;
    try reflexivity; f_equal; lia.
Qed.

Lemma lookup2_fold_bump ps : forall adj a b,
  lookup2 (fold_left bump_both ps adj) a b
  = if total_hits a b ps =? 0 then lookup2 adj a b
    else Some (or_zero (lookup2 adj a b) + total_hits a b ps).
Proof.
  induction ps as [|p r IH]; intros adj a b; simpl; auto.
  rewrite IH, lookup2_bump_both.
  pose proof (edge_hits_nonneg a b p) as Hp.
  pose proof (total_hits_nonneg a b r) as Hr.
  destruct (edge_hits a b p =? 0) eqn:E1;
    destruct (total_hits a b r =? 0) eqn:E2;
    destruct (edge_hits a b p + total_hits a b r =? 0) eqn:E3;
    rewrite ?Z.eqb_eq, ?Z.eqb_neq in *; simpl; try lia; auto; f_equal; lia.
Qed.

Lemma occurrences_cons a x r :
  occurrences a (x :: r)
  = (if String.eqb x a then 1 else 0) + occurrences a r.
Proof.
  unfold occurrences. simpl.
  destruct (string_dec x a) as [->|Hne].
  - rewrite String.eqb_refl. lia.
  - apply String.eqb_neq in Hne. rewrite Hne. lia.
Qed.

#[local] Arguments Z.add _ _ : simpl never.
#[local] Arguments Z.mul _ _ : simpl never.
#[local] Arguments Z.sub _ _ : simpl never.

Lemma occurrences_nonneg a t : 0 <= occurrences a t.
Proof. unfold occurrences. lia. Qed.

Lemma total_hits_row a b x r :
  total_hits a b (map (pair x) r)
  = (if String.eqb x a then occurrences b r else 0)
    + (if String.eqb x b then occurrences a r else 0).
Proof.
  induction r as [|y r IH]; simpl.
  - unfold occurrences. simpl. destruct (String.eqb x a), (String.eqb x b); lia.
  - rewrite IH, !occurrences_cons. unfold edge_hits. simpl.
    destruct (String.eqb x a), (String.eqb x b),
      (String.eqb y a), (String.eqb y b); simpl; lia.
Qed.

Lemma total_hits_pairs a b s : total_hits a b (pairs s) = increments s a b.
Proof.
  unfold increments.
  induction s as [|x r IH]; simpl.
  - unfold occurrences. simpl. now destruct (String.eqb a b).
  - rewrite total_hits_app, total_hits_row, IH, !occurrences_cons.
    destruct (String.eqb a b) eqn:Eab.
    + apply String.eqb_eq in Eab. subst b.
      destruct (String.eqb x a); nia.
    + destruct (String.eqb x a) eqn:Exa; destruct (String.eqb x b) eqn:Exb;
        try nia.
      apply String.eqb_eq in Exa, Exb. subst.
      rewrite String.eqb_refl in Eab. discriminate.
Qed.

Lemma occurrences_sorted a t : occurrences a (sorted_str t) = occurrences a t.
Proof.
  unfold occurrences, sorted_str. f_equal.
  apply Permutation_count_occ, stable_sort_perm.
Qed.

Lemma increments_sorted t a b : increments (sorted_str t) a b = increments t a b.
Proof. unfold increments. now rewrite !occurrences_sorted. Qed.

Lemma increments_short t a b :
  (List.length t < 2)%nat -> increments t a b = 0.
Proof.
  intros Hlen. rewrite <- total_hits_pairs.
  destruct t as [|x [|y r]]; simpl in *; auto; lia.
Qed.

Lemma increments_sym t a b : increments t a b = increments t b a.
Proof.
  unfold increments. rewrite (String.eqb_sym b a).
  destruct (String.eqb a b) eqn:E; [|lia].
  apply String.eqb_eq in E. subst. lia.
Qed.

Lemma increments_nonneg t a b : 0 <= increments t a b.
Proof. rewrite <- total_hits_pairs. apply total_hits_nonneg. Qed.

(** The pair count after [add_transaction]. *)
Lemma co_add_transaction t g a b :
  co (add_transaction_state t g) a b
  = if increments t a b =? 0 then co g a b
    else Some (weight g a b + increments t a b).
Proof.
  unfold add_transaction_state, co, weight, co.
  destruct (List.length t <? 2)%nat eqn:Hlen.
  - apply Nat.ltb_lt in Hlen. rewrite increments_short by exact Hlen.
    reflexivity.
  - simpl. rewrite lookup2_fold_bump, total_hits_pairs, increments_sorted.
    reflexivity.
Qed.

Lemma weight_add_transaction t g a b :
  weight (add_transaction_state t g) a b = weight g a b + increments t a b.
Proof.
  unfold weight at 1. rewrite co_add_transaction.
  destruct (increments t a b =? 0) eqn:E; simpl; auto.
  apply Z.eqb_eq in E. unfold weight. lia.
Qed.

Lemma counter_get_add a x n c :
  Counter.get a (Counter.add x n c)
  = Counter.get a c + (if String.eqb x a then n else 0).
Proof.
  unfold Counter.add, Counter.get at 1. rewrite get_set.
  rewrite (String.eqb_sym a x).
  destruct (String.eqb x a) eqn:E.
  - apply String.eqb_eq in E. now subst.
  - fold (Counter.get a c). lia.
Qed.

(** The frequency after [add_transaction]. *)
Lemma freq_add_transaction t g a :
  freq (add_transaction_state t g) a = freq g a + occurrences a t.
Proof.
  assert (H : forall c,
    Counter.get a (fold_left (fun c x => Counter.add x 1 c) t c)
    = Counter.get a c + occurrences a t).
  { induction t as [|x r IH]; intros c; simpl.
    - unfold occurrences. simpl. lia.
    - rewrite IH, counter_get_add, occurrences_cons. lia. }
  unfold add_transaction_state, freq.
  destruct (List.length t <? 2)%nat; simpl; apply H.
Qed.

Lemma categories_add_transaction t g :
  product_categories (add_transaction_state t g) = product_categories g.
Proof.
  unfold add_transaction_state.
  destruct (List.length t <? 2)%nat; reflexivity.
Qed.

(** Deduplicated transactions. *)
Lemma occurrences_NoDup a t :
  NoDup t -> occurrences a t = if str_in a t then 1 else 0.
Proof.
  intros Hnd. induction Hnd as [|x r Hni Hnd IH].
  - reflexivity.
  - rewrite occurrences_cons, IH. simpl. rewrite (String.eqb_sym a x).
    destruct (String.eqb x a) eqn:E; simpl; auto.
    apply String.eqb_eq in E. subst x.
    destruct (str_in a r) eqn:I; auto.
    exfalso. apply Hni. unfold str_in in I. apply existsb_exists in I.
    destruct I as [y [Hy Ey]]. apply String.eqb_eq in Ey. now subst.
Qed.

Lemma str_in_In a t : str_in a t = true <-> In a t.
Proof.
  unfold str_in. rewrite existsb_exists. split.
  - intros [y [Hy Ey]]. apply String.eqb_eq in Ey. now subst.
  - intros H. exists a. split; auto. apply String.eqb_refl.
Qed.

Lemma occurrences_not_In a t : ~ In a t -> occurrences a t = 0.
Proof.
  intros H. unfold occurrences.
  now rewrite (proj1 (count_occ_not_In string_dec t a) H).
Qed.

Lemma increments_NoDup t a b :
  NoDup t ->
  increments t a b
  = if str_in a t && str_in b t && negb (String.eqb a b) then 1 else 0.
Proof.
  intros Hnd. unfold increments. rewrite !occurrences_NoDup by exact Hnd.
  destruct (String.eqb a b) eqn:E.
  - apply String.eqb_eq in E. subst b. now destruct (str_in a t).
  - now destruct (str_in a t), (str_in b t).
Qed.

(** ** Running the queries *)

Lemma for_fold_run {A S : Type} (F : S -> A -> S) (body : S -> A -> M S) l g :
  (forall s x, body s x g = Ok (F s x) g) ->
  forall s, for_fold l body s g = Ok (fold_left F l s) g.
Proof.
  intros Hbody. induction l as [|x r IH]; intros s; simpl; auto.
  unfold bind. now rewrite Hbody.
Qed.

Lemma adjacency_getitem_known k d g :
  Dict.get k (adjacency_list g) = Some d -> adjacency_getitem k g = Ok d g.
Proof.
  intros H. unfold adjacency_getitem, bind, read. now rewrite H.
Qed.

(** On a missing key the subscript does change the state: the read-only
    results below rest on the membership tests that guard it. *)
Lemma adjacency_getitem_unknown k g :
  Dict.get k (adjacency_list g) = None ->
  adjacency_getitem k g
  = Ok Dict.empty
      (with_adjacency (Dict.set k Dict.empty (adjacency_list g)) g).
Proof.
  intros H. unfold adjacency_getitem, bind, read. now rewrite H.
Qed.

Lemma get_top_co_purchase_run target n g :
  get_top_co_purchase target n g = Ok (top_co_purchase_of g target n) g.
Proof.
  unfold get_top_co_purchase, top_co_purchase_of, adjacency_contains,
    bind, read, ret.
  rewrite contains_get.
  destruct (Dict.get target (adjacency_list g)) as [d|] eqn:G; simpl; auto.
  now rewrite (adjacency_getitem_known _ _ _ G).
Qed.

Lemma get_top3_product_pairs_run g :
  get_top3_product_pairs g = Ok (top3_pairs_of g) g.
Proof. reflexivity. Qed.

Lemma check_co_purchase_relation_run a b g :
  check_co_purchase_relation a b g = Ok (weight g a b) g.
Proof.
  unfold check_co_purchase_relation, weight, co, lookup2, adjacency_contains,
    dict_getitem, bind, read, ret.
  rewrite contains_get.
  destruct (Dict.get a (adjacency_list g)) as [d|] eqn:G; simpl; auto.
  rewrite (adjacency_getitem_known _ _ _ G), contains_get.
  destruct (Dict.get b d) eqn:Gb; simpl; auto.
  rewrite (adjacency_getitem_known _ _ _ G). now rewrite Gb.
Qed.

Lemma filter_by_category_run category g :
  filter_by_category category g = Ok (filter_by_category_of g category) g.
Proof.
  unfold filter_by_category, filter_by_category_of, bind, read.
  set (cp := category_products_of (product_categories g) category).
  assert (H : for_fold cp (fun filtered_adj product =>
      known <- adjacency_contains product ;;
      if known then
        d <- adjacency_getitem product ;;
        match Dict.of_items
          (filter (fun nc => str_in (fst nc) cp) (items d)) with
        | [] => ret filtered_adj
        | _ :: _ =>
            ret (Dict.set product
                   (Dict.of_items
                      (filter (fun nc => str_in (fst nc) cp) (items d)))
                   filtered_adj)
        end
      else ret filtered_adj) Dict.empty g
    = Ok (fold_left (filter_step (adjacency_list g) cp) cp Dict.empty) g).
  { apply for_fold_run. intros s x.
    unfold filter_step, adjacency_contains, bind, read, ret.
    rewrite contains_get.
    destruct (Dict.get x (adjacency_list g)) as [d|] eqn:G; simpl; auto.
    rewrite (adjacency_getitem_known _ _ _ G).
    now destruct (Dict.of_items _). }
  destruct cp; [reflexivity|exact H].
Qed.

Lemma get_recommendation_run inputs n g :
  get_recommendation inputs n g
  = Ok (most_common n (recommendation_scores_of g inputs)) g.
Proof.
  unfold get_recommendation, recommendation_scores_of.
  unfold bind at 1.
  rewrite (for_fold_run (scores_step (adjacency_list g) inputs)).
  - reflexivity.
  - intros s x. unfold scores_step, adjacency_contains, bind, read, ret.
    rewrite contains_get.
    destruct (Dict.get x (adjacency_list g)) as [d|] eqn:G; simpl; auto.
    now rewrite (adjacency_getitem_known _ _ _ G).
Qed.

(** ** Ingestion *)

Lemma ingest_cons t txs g :
  ingest (t :: txs) g = ingest txs (add_transaction_state t g).
Proof. unfold ingest. simpl. now rewrite add_transaction_run. Qed.

Lemma ingest_snoc txs t g :
  ingest (txs ++ [t]) g = add_transaction_state t (ingest txs g).
Proof.
  unfold ingest. rewrite fold_left_app. simpl. now rewrite add_transaction_run.
Qed.

(** Induction over the states reached from a state satisfying [P], by
    transactions that satisfy [Q]. *)
Lemma ingest_ind_Forall (Q : list string -> Prop) (P : Graph -> Prop) g :
  P g -> (forall t g', Q t -> P g' -> P (add_transaction_state t g')) ->
  forall txs, Forall Q txs -> P (ingest txs g).
Proof.
  intros H0 Hstep txs HQ. revert g H0.
  induction HQ as [|t r Ht HQ IH]; intros g H0; [exact H0|].
  rewrite ingest_cons. apply IH. now apply Hstep.
Qed.

Lemma ingest_ind (P : Graph -> Prop) g :
  P g -> (forall t g', P g' -> P (add_transaction_state t g')) ->
  forall txs, P (ingest txs g).
Proof.
  intros H0 Hstep txs.
  apply (ingest_ind_Forall (fun _ => True)); auto.
  apply Forall_forall. auto.
Qed.

Lemma symmetric_add_transaction t g :
  symmetric g -> symmetric (add_transaction_state t g).
Proof.
  intros Hsym a b. rewrite !co_add_transaction.
  unfold weight. now rewrite (increments_sym t b a), (Hsym b a).
Qed.

Lemma symmetric_init : symmetric init.
Proof. intros a b. reflexivity. Qed.

Lemma symmetric_ingest txs : symmetric (ingest txs init).
Proof.
  apply ingest_ind; [exact symmetric_init|].
  intros t g. apply symmetric_add_transaction.
Qed.

(** Keys enter the adjacency list only for items of a transaction. *)
Lemma In_pairs p s : In p (pairs s) -> In (fst p) s /\ In (snd p) s.
Proof.
  induction s as [|x r IH]; simpl; [tauto|].
  rewrite in_app_iff, in_map_iff. intros [[y [<- Hy]]|H]; simpl; auto.
  apply IH in H. tauto.
Qed.

Lemma get_bump x a b adj :
  x <> a -> Dict.get x (bump a b adj) = Dict.get x adj.
Proof. intros H. unfold bump. now apply get_set_other. Qed.

Lemma get_fold_bump x ps : forall adj,
  (forall p, In p ps -> x <> fst p /\ x <> snd p) ->
  Dict.get x (fold_left bump_both ps adj) = Dict.get x adj.
Proof.
  induction ps as [|p r IH]; intros adj H; simpl; auto.
  rewrite IH by (intros; apply H; now right).
  destruct (H p (or_introl eq_refl)) as [H1 H2].
  unfold bump_both. now rewrite !get_bump.
Qed.

Lemma In_sorted_str x t : In x (sorted_str t) <-> In x t.
Proof. apply stable_sort_In. Qed.

Lemma get_adjacency_add_transaction x t g :
  ~ In x t ->
  Dict.get x (adjacency_list (add_transaction_state t g))
  = Dict.get x (adjacency_list g).
Proof.
  intros Hx. unfold add_transaction_state.
  destruct (List.length t <? 2)%nat; simpl; auto.
  apply get_fold_bump. intros p Hp. apply In_pairs in Hp.
  rewrite !In_sorted_str in Hp. split; intros ->; tauto.
Qed.

Lemma never_ingested_unknown x txs :
  ~ In x (List.concat txs) -> Dict.get x (adjacency_list (ingest txs init)) = None.
Proof.
  intros Hx.
  assert (Hall : Forall (fun t => ~ In x t) txs).
  { apply Forall_forall. intros t Ht Hin. apply Hx.
    apply in_concat. eauto. }
  apply (ingest_ind_Forall (fun t => ~ In x t)
           (fun g => Dict.get x (adjacency_list g) = None)); auto.
  intros t g Ht Hg. now rewrite get_adjacency_add_transaction.
Qed.

(** In a symmetric state a neighbour is a key of the adjacency list. *)
Lemma symmetric_absent g a b :
  symmetric g ->
  Dict.contains a (adjacency_list g) = false
  \/ Dict.contains b (adjacency_list g) = false ->
  co g a b = None.
Proof.
  intros Hsym [H|H]; [|rewrite Hsym];
    unfold co, lookup2; rewrite contains_get in H;
    now destruct (Dict.get _ (adjacency_list g)).
Qed.

(** ** The claims on [add_transaction] *)

(** C1. After any sequence of [add_transaction] calls on a new graph the
    co-purchase counts are symmetric: [coPurchase[a][b]] is defined
    exactly when [coPurchase[b][a]] is, with the same count, and
    [check_co_purchase_relation] answers the same for [(a, b)] and
    [(b, a)].  The transactions need not even be deduplicated. *)
Theorem symmetry_invariant (txs : list (list string)) (a b : string) :
  let g := ingest txs init in
  ((exists n, co g a b = Some n) <-> (exists n, co g b a = Some n))
  /\ co g a b = co g b a
  /\ exists n, check_co_purchase_relation a b g = Ok n g
               /\ check_co_purchase_relation b a g = Ok n g.
Proof.
  intros g. pose proof (symmetric_ingest txs a b) as H. fold g in H.
  split; [now rewrite H|]. split; [exact H|].
  exists (weight g a b). rewrite !check_co_purchase_relation_run.
  unfold weight. now rewrite H.
Qed.

(** C4. Ingesting a deduplicated transaction twice adds to every
    frequency and to every pair count exactly twice what ingesting it
    once adds: 2 against 1 for the items and the pairs of distinct items
    of the transaction, and nothing at all for the other counts. *)
Theorem additivity (g : Graph) (t : list string) (Hdedup : NoDup t) :
  let g1 := state_of (add_transaction t g) in
  let g2 := state_of (add_transaction t g1) in
  (forall x, freq g2 x - freq g x = 2 * (freq g1 x - freq g x))
  /\ (forall a b,
        weight g2 a b - weight g a b = 2 * (weight g1 a b - weight g a b))
  /\ (forall x, In x t ->
        freq g1 x = freq g x + 1 /\ freq g2 x = freq g x + 2)
  /\ (forall a b, In a t -> In b t -> a <> b ->
        co g1 a b = Some (weight g a b + 1)
        /\ co g2 a b = Some (weight g a b + 2))
  /\ (forall x, ~ In x t -> freq g1 x = freq g x /\ freq g2 x = freq g x)
  /\ (forall a b, ~ (In a t /\ In b t /\ a <> b) ->
        co g1 a b = co g a b /\ co g2 a b = co g a b).
Proof.
  intros g1 g2. subst g1 g2. rewrite !add_transaction_run. cbn [state_of].
  repeat split; intros.
  - rewrite !freq_add_transaction. lia.
  - rewrite !weight_add_transaction. lia.
  - rewrite freq_add_transaction, occurrences_NoDup by exact Hdedup.
    apply str_in_In in H. now rewrite H.
  - rewrite !freq_add_transaction, occurrences_NoDup by exact Hdedup.
    apply str_in_In in H. rewrite H. lia.
  - rewrite co_add_transaction, increments_NoDup by exact Hdedup.
    apply str_in_In in H, H0. apply String.eqb_neq in H1.
    now rewrite H, H0, H1.
  - rewrite co_add_transaction, weight_add_transaction,
      increments_NoDup by exact Hdedup.
    apply str_in_In in H, H0. apply String.eqb_neq in H1.
    rewrite H, H0, H1. simpl. f_equal. lia.
  - rewrite freq_add_transaction, occurrences_not_In by exact H. lia.
  - rewrite !freq_add_transaction, occurrences_not_In by exact H. lia.
  - rewrite co_add_transaction, increments_NoDup by exact Hdedup.
    destruct (str_in a t) eqn:Ia; destruct (str_in b t) eqn:Ib;
      destruct (String.eqb a b) eqn:Eab; simpl; auto.
    exfalso. apply H. rewrite <- !str_in_In. now apply String.eqb_neq in Eab.
  - rewrite !co_add_transaction, increments_NoDup by exact Hdedup.
    destruct (str_in a t) eqn:Ia; destruct (str_in b t) eqn:Ib;
      destruct (String.eqb a b) eqn:Eab; simpl; auto.
    exfalso. apply H. rewrite <- !str_in_In. now apply String.eqb_neq in Eab.
Qed.

Lemma additivity_witness :
  let t := ["whole milk"; "yogurt"] in
  let g1 := state_of (add_transaction t test_graph) in
  let g2 := state_of (add_transaction t g1) in
  NoDup t
  /\ weight g2 "whole milk" "yogurt" - weight test_graph "whole milk" "yogurt"
     = 2 * (weight g1 "whole milk" "yogurt"
            - weight test_graph "whole milk" "yogurt").
Proof.
  assert (Hd : NoDup ["whole milk"; "yogurt"]).
  { repeat constructor; simpl; intuition discriminate. }
  split; [exact Hd|].
  pose proof (additivity test_graph ["whole milk"; "yogurt"] Hd) as H.
  cbv zeta in H. destruct H as (_ & H & _). exact (H _ _).
Defined.

(** C8. After any sequence of [add_transaction] calls on a new graph
    with transactions that hold each item at most once, a recorded pair
    count is at most the frequency of either item. *)
Theorem count_bound (txs : list (list string))
  (Hdedup : Forall (@NoDup string) txs) (a b : string) (n : Z) :
  let g := ingest txs init in
  co g a b = Some n -> n <= freq g a /\ n <= freq g b.
Proof.
  intros g Hn.
  assert (H : forall a b, weight g a b <= freq g a /\ weight g a b <= freq g b).
  { subst g. clear a b n Hn.
    apply (ingest_ind_Forall (@NoDup string)
             (fun g => forall a b,
                weight g a b <= freq g a /\ weight g a b <= freq g b));
      auto.
    - intros a b. cbv. split; discriminate.
    - intros t g Ht IH a b.
      rewrite weight_add_transaction, !freq_add_transaction.
      rewrite increments_NoDup, !occurrences_NoDup by exact Ht.
      specialize (IH a b).
      destruct (str_in a t), (str_in b t), (String.eqb a b); simpl; lia. }
  specialize (H a b). unfold weight in H. now rewrite Hn in H.
Qed.

Lemma count_bound_witness :
  Forall (@NoDup string) test_transactions
  /\ co test_graph "whole milk" "yogurt" = Some 2
  /\ 2 <= freq test_graph "whole milk" /\ 2 <= freq test_graph "yogurt".
Proof.
  assert (Hd : Forall (@NoDup string) test_transactions).
  { repeat constructor; simpl; intuition discriminate. }
  assert (Hc : co test_graph "whole milk" "yogurt" = Some 2).
  { vm_compute. reflexivity. }
  split; [exact Hd|]. split; [exact Hc|].
  exact (count_bound test_transactions Hd "whole milk" "yogurt" 2 Hc).
Defined.

(** ** The claims on the queries *)

(** C7. In a graph built by [add_transaction] calls, a target that
    occurs in no transaction gets the empty list from
    [get_top_co_purchase], and [check_co_purchase_relation] answers 0
    for it on either side; more generally the check answers 0 as soon as
    one of the two items is no key of the adjacency list or no count is
    recorded for the pair.  Both queries return a value, whatever the
    arguments: neither subscript raises. *)
Theorem unknown_item (txs : list (list string)) (x : string)
  (Hnever : ~ In x (List.concat txs)) :
  let g := ingest txs init in
  (forall n, get_top_co_purchase x n g = Ok [] g)
  /\ (forall y, check_co_purchase_relation x y g = Ok 0 g
                /\ check_co_purchase_relation y x g = Ok 0 g)
  /\ (forall a n, Dict.contains a (adjacency_list g) = false ->
        get_top_co_purchase a n g = Ok [] g)
  /\ (forall a b,
        Dict.contains a (adjacency_list g) = false
        \/ Dict.contains b (adjacency_list g) = false
        \/ co g a b = None ->
        check_co_purchase_relation a b g = Ok 0 g)
  /\ (forall a n, exists r, get_top_co_purchase a n g = Ok r g)
  /\ (forall a b, exists r, check_co_purchase_relation a b g = Ok r g).
Proof.
  intros g.
  assert (Hsym : symmetric g) by apply symmetric_ingest.
  assert (Htop : forall a n, Dict.contains a (adjacency_list g) = false ->
                   get_top_co_purchase a n g = Ok [] g).
  { intros a n Ha. rewrite get_top_co_purchase_run.
    unfold top_co_purchase_of. rewrite contains_get in Ha.
    now destruct (Dict.get a (adjacency_list g)). }
  assert (Hchk : forall a b,
            Dict.contains a (adjacency_list g) = false
            \/ Dict.contains b (adjacency_list g) = false
            \/ co g a b = None ->
            check_co_purchase_relation a b g = Ok 0 g).
  { intros a b H. rewrite check_co_purchase_relation_run. unfold weight.
    assert (Hco : co g a b = None).
    { destruct H as [H|[H|H]]; auto; apply symmetric_absent; auto. }
    now rewrite Hco. }
  assert (Hx : Dict.contains x (adjacency_list g) = false).
  { rewrite contains_get. subst g.
    now rewrite (never_ingested_unknown x txs Hnever). }
  repeat split; auto.
  - intros a n. rewrite get_top_co_purchase_run. eauto.
  - intros a b. rewrite check_co_purchase_relation_run. eauto.
Qed.

Lemma unknown_item_witness :
  ~ In "milk" (List.concat test_transactions)
  /\ get_top_co_purchase "milk" 5 test_graph = Ok [] test_graph
  /\ check_co_purchase_relation "bread" "milk" test_graph = Ok 0 test_graph.
Proof.
  assert (Hn : ~ In "milk" (List.concat test_transactions)).
  { simpl. intuition discriminate. }
  split; [exact Hn|].
  pose proof (unknown_item test_transactions "milk" Hn) as H.
  cbv zeta in H. destruct H as (Ht & Hc & _).
  split; [exact (Ht 5)|exact (proj2 (Hc "bread"))].
Defined.

(** C9. Each of the five queries returns with the state it was called
    in, the frequencies and the adjacency list included: the
    [defaultdict] subscript, which would store an empty entry for a
    missing key, is only reached behind a membership test. *)
Theorem queries_read_only (g : Graph) :
  (forall target n, exists r, get_top_co_purchase target n g = Ok r g)
  /\ (exists r, get_top3_product_pairs g = Ok r g)
  /\ (forall a b, exists r, check_co_purchase_relation a b g = Ok r g)
  /\ (forall c, exists r, filter_by_category c g = Ok r g)
  /\ (forall inputs n, exists r, get_recommendation inputs n g = Ok r g).
Proof.
  repeat split; intros.
  - rewrite get_top_co_purchase_run. eauto.
  - rewrite get_top3_product_pairs_run. eauto.
  - rewrite check_co_purchase_relation_run. eauto.
  - rewrite filter_by_category_run. eauto.
  - rewrite get_recommendation_run. eauto.
Qed.

(** The state after querying the test graph for an item it has never
    seen is the test graph, with no entry for the item. *)
Example query_unknown_no_entry :
  state_of (get_top_co_purchase "bread" 5 test_graph) = test_graph
  /\ state_of (check_co_purchase_relation "bread" "milk" test_graph)
     = test_graph
  /\ Dict.contains "bread" (adjacency_list test_graph) = false
  /\ Dict.contains "bread"
       (adjacency_list (state_of (adjacency_getitem "bread" test_graph)))
     = true.
Proof. vm_compute. auto. Qed.

Lemma In_firstn {A : Type} (x : A) n l : In x (firstn n l) -> In x l.
Proof.
  revert l. induction n as [|n IH]; intros [|y l]; simpl; try tauto.
  intros [H|H]; auto.
Qed.

Lemma In_most_common x c n scores :
  In (x, c) (most_common n scores) -> In (x, c) scores.
Proof.
  unfold most_common. destruct (n <=? 0); [intros []|].
  intros H. apply In_firstn in H.
  unfold sorted_by_count_desc in H. now apply stable_sort_In in H.
Qed.

Lemma score_neighbor_keys inputs nc scores x c :
  In (x, c) (score_neighbor inputs scores nc) ->
  In (x, c) scores \/ ~ In x inputs.
Proof.
  unfold score_neighbor, Counter.add.
  destruct (str_in (fst nc) inputs) eqn:E; simpl; auto.
  intros H. apply In_set in H. destruct H as [[-> _]|H]; auto.
  right. rewrite <- str_in_In. now rewrite E.
Qed.

Lemma recommendation_scores_keys g inputs x c :
  In (x, c) (recommendation_scores_of g inputs) -> ~ In x inputs.
Proof.
  unfold recommendation_scores_of.
  assert (H : forall l scores,
    (forall x c, In (x, c) scores -> ~ In x inputs) ->
    forall x c,
      In (x, c) (fold_left (scores_step (adjacency_list g) inputs) l scores) ->
      ~ In x inputs).
  { induction l as [|p l IH]; intros scores Hs; simpl; auto.
    apply IH. unfold scores_step.
    destruct (Dict.get p (adjacency_list g)) as [d|]; auto.
    unfold items. clear IH. revert scores Hs.
    induction d as [|nc d IHd]; intros scores Hs; simpl; auto.
    apply IHd. intros y cy Hy.
    apply score_neighbor_keys in Hy. destruct Hy; eauto. }
  apply (H inputs Dict.empty). intros y cy [].
Qed.

(** C5. No product returned by [get_recommendation] is one of the input
    products, whatever the graph and the number asked for, and no input
    products give no recommendation. *)
Theorem recommendation_exclusion (g : Graph) (inputs : list string) (n : Z) :
  (exists r, get_recommendation inputs n g = Ok r g
             /\ forall x c, In (x, c) r -> ~ In x inputs)
  /\ get_recommendation [] n g = Ok [] g.
Proof.
  split.
  - rewrite get_recommendation_run. eexists. split; [reflexivity|].
    intros x c H. apply In_most_common in H.
    now apply recommendation_scores_keys in H.
  - rewrite get_recommendation_run. unfold most_common. simpl.
    destruct (n <=? 0); auto. now destruct (Z.to_nat n).
Qed.

Lemma category_products_In cats category p :
  In p (category_products_of cats category) <-> In (p, category) cats.
Proof.
  unfold category_products_of, items. rewrite in_map_iff. split.
  - intros [[q cat] [<- H]]. apply filter_In in H. destruct H as [H E].
    simpl in *. apply String.eqb_eq in E. now subst.
  - intros H. exists (p, category). split; auto.
    apply filter_In. split; auto. apply String.eqb_refl.
Qed.

(** What holds of every entry produced by the loop of [filter_by_category]. *)
Lemma filter_step_entries adj cp l : forall acc,
  (forall p nbrs, In (p, nbrs) acc ->
     In p cp /\ nbrs <> []
     /\ exists d, Dict.get p adj = Some d
          /\ forall q cnt, In (q, cnt) nbrs -> In q cp /\ In (q, cnt) d) ->
  (forall p, In p l -> In p cp) ->
  forall p nbrs, In (p, nbrs) (fold_left (filter_step adj cp) l acc) ->
     In p cp /\ nbrs <> []
     /\ exists d, Dict.get p adj = Some d
          /\ forall q cnt, In (q, cnt) nbrs -> In q cp /\ In (q, cnt) d.
Proof.
  induction l as [|x l IH]; intros acc Hacc Hl; simpl; auto.
  apply IH; [|intros; apply Hl; now right].
  intros p nbrs. unfold filter_step.
  match goal with
  | |- context [match ?t with Some _ => _ | None => _ end] =>
      destruct t as [d|] eqn:G; auto
  end.
  match goal with
  | |- context [match ?t with [] => _ | _ :: _ => _ end] =>
      destruct t as [|e r] eqn:Eo; auto
  end.
  intros Hin. apply In_set in Hin. destruct Hin as [[-> ->]|Hin]; auto.
  split; [apply Hl; now left|]. split; [discriminate|].
  exists d. split; auto. intros q cnt Hq. rewrite <- Eo in Hq.
  apply In_of_items in Hq. apply filter_In in Hq. destruct Hq as [Hq Hs].
  simpl in Hs. apply str_in_In in Hs. auto.
Qed.

(** C6. Every key of the result of [filter_by_category c], and every
    neighbour kept under it, has category [c] in the category table; a
    key is kept with a non-empty neighbour mapping, made of entries of
    its adjacency dictionary; and a category that no product has gives
    the empty mapping. *)
Theorem category_filter_closure (g : Graph) (c : string)
  (Hwf : Dict.wf (product_categories g)) :
  exists r, filter_by_category c g = Ok r g
  /\ (forall p nbrs, In (p, nbrs) (items r) ->
        Dict.get p (product_categories g) = Some c
        /\ nbrs <> Dict.empty
        /\ exists d, Dict.get p (adjacency_list g) = Some d
             /\ forall q cnt, In (q, cnt) (items nbrs) ->
                  Dict.get q (product_categories g) = Some c
                  /\ In (q, cnt) (items d))
  /\ ((forall p, Dict.get p (product_categories g) <> Some c) ->
      r = Dict.empty).
Proof.
  rewrite filter_by_category_run. eexists. split; [reflexivity|].
  assert (Hcat : forall p, In p (category_products_of (product_categories g) c)
                   -> Dict.get p (product_categories g) = Some c).
  { intros p Hp. apply category_products_In in Hp. now apply In_get. }
  split.
  - intros p nbrs Hin. unfold filter_by_category_of, items in Hin.
    apply filter_step_entries in Hin; auto; [|intros ? ? []].
    destruct Hin as (Hp & Hne & d & Hd & Hq).
    split; [auto|]. split; [exact Hne|].
    exists d. split; auto. intros q cnt Hqin.
    destruct (Hq q cnt Hqin). auto.
  - intros Hnone. unfold filter_by_category_of.
    destruct (category_products_of (product_categories g) c) as [|p l] eqn:E;
      [reflexivity|].
    exfalso. apply (Hnone p). apply Hcat. now left.
Qed.

Lemma init_categories_wf : Dict.wf _init_product_categories.
Proof.
  exact (NoDup_nodup string_dec (Dict.keys _init_product_categories)).
Qed.

Lemma categories_ingest txs g :
  product_categories (ingest txs g) = product_categories g.
Proof.
  apply (ingest_ind (fun g' => product_categories g' = product_categories g));
    auto.
  intros t g' H. now rewrite categories_add_transaction.
Qed.

(** Every graph built from [__init__] by [add_transaction] calls meets
    the hypothesis of the closure theorem. *)
Lemma categories_wf_ingest txs :
  Dict.wf (product_categories (ingest txs init)).
Proof. rewrite categories_ingest. exact init_categories_wf. Qed.

Lemma category_filter_closure_witness :
  Dict.wf (product_categories test_graph)
  /\ exists r, filter_by_category "dairy" test_graph = Ok r test_graph
       /\ forall p nbrs, In (p, nbrs) (items r) ->
            Dict.get p (product_categories test_graph) = Some "dairy".
Proof.
  assert (Hwf : Dict.wf (product_categories test_graph)).
  { exact (NoDup_nodup string_dec (Dict.keys _init_product_categories)). }
  split; [exact Hwf|].
  destruct (category_filter_closure test_graph "dairy" Hwf) as (r & Hr & H & _).
  exists r. split; [exact Hr|].
  intros p nbrs Hin. exact (proj1 (H p nbrs Hin)).
Defined.

(** ** Order of the results *)

Lemma slice_to_nonneg {A : Type} n (l : list A) :
  0 <= n -> slice_to n l = firstn (Z.to_nat n) l.
Proof.
  intros H. unfold slice_to. apply Z.leb_le in H. now rewrite H.
Qed.

(** C2 as the specification words it fails: with two neighbours of equal
    count the code returns them in the order they entered the
    dictionary, here ["z"] before ["a"]. *)
Lemma top_co_purchase_not_lexicographic :
  value_of (get_top_co_purchase "m" 2 tie_graph)
  = Some [("z", 1); ("a", 1)]
  /\ spec_top_co_purchase tie_graph "m" 2 = [("a", 1); ("z", 1)]
  /\ value_of (get_top_co_purchase "m" 2 tie_graph)
     <> Some (spec_top_co_purchase tie_graph "m" 2).
Proof. vm_compute. repeat split; discriminate. Qed.

(** C2, amended.  For a target that is a key of the adjacency list and
    a count [n >= 0], [get_top_co_purchase] returns the first [n] entries
    of the neighbours sorted by descending count, where neighbours of
    equal count keep the order they have in the target's dictionary (the
    order of first insertion); with at most [n] neighbours all of them
    are returned. *)
Theorem top_co_purchase_order (g : Graph) (target : string) (n : Z)
  (d : dict Z) (Hn : 0 <= n)
  (Hknown : Dict.get target (adjacency_list g) = Some d) :
  exists sorted_all,
    get_top_co_purchase target n g = Ok (firstn (Z.to_nat n) sorted_all) g
    /\ Permutation sorted_all (items d)
    /\ StronglySorted (fun x y => snd y <= snd x) sorted_all
    /\ (forall c, filter (fun x => snd x =? c) sorted_all
                  = filter (fun x => snd x =? c) (items d))
    /\ ((List.length (items d) <= Z.to_nat n)%nat ->
        firstn (Z.to_nat n) sorted_all = sorted_all).
Proof.
  exists (sorted_by_count_desc (items d)).
  destruct (sorted_by_count_desc_spec (items d)) as (Hp & Hs & Hst).
  rewrite get_top_co_purchase_run. unfold top_co_purchase_of.
  rewrite Hknown, slice_to_nonneg by exact Hn.
  repeat split; auto.
  intros Hlen. apply firstn_all2.
  now rewrite (Permutation_length Hp).
Qed.

Lemma top_co_purchase_order_witness :
  0 <= 2
  /\ Dict.get "m" (adjacency_list tie_graph) = Some [("z", 1); ("a", 1)]
  /\ exists sorted_all,
       get_top_co_purchase "m" 2 tie_graph
       = Ok (firstn (Z.to_nat 2) sorted_all) tie_graph
       /\ Permutation sorted_all [("z", 1); ("a", 1)].
Proof.
  assert (Hn : 0 <= 2) by lia.
  assert (Hk : Dict.get "m" (adjacency_list tie_graph)
               = Some [("z", 1); ("a", 1)]) by (vm_compute; reflexivity).
  split; [exact Hn|]. split; [exact Hk|].
  destruct (top_co_purchase_order tie_graph "m" 2 _ Hn Hk)
    as (l & Hrun & Hperm & _).
  exists l. split; [exact Hrun|exact Hperm].
Defined.

(** ** Shape of the reachable adjacency lists *)

Lemma wf_empty {V : Type} : Dict.wf (@Dict.empty V).
Proof. constructor. Qed.

Lemma adjacency_wf_bump a b adj : adjacency_wf adj -> adjacency_wf (bump a b adj).
Proof.
  intros [Hout Hin]. unfold bump. split.
  - now apply wf_set.
  - intros k d Hk. apply In_set in Hk. destruct Hk as [[-> ->]|Hk]; eauto.
    apply wf_set.
    destruct (Dict.get a adj) as [d0|] eqn:G; [|apply wf_empty].
    apply get_In in G. eauto.
Qed.

Lemma adjacency_wf_add_transaction t g :
  adjacency_wf (adjacency_list g) ->
  adjacency_wf (adjacency_list (add_transaction_state t g)).
Proof.
  intros H. unfold add_transaction_state.
  destruct (List.length t <? 2)%nat; simpl; auto.
  generalize (pairs (sorted_str t)). intros ps. revert H.
  generalize (adjacency_list g).
  induction ps as [|p r IH]; intros adj H; simpl; auto.
  apply IH. unfold bump_both. now apply adjacency_wf_bump, adjacency_wf_bump.
Qed.

Lemma adjacency_wf_ingest txs : adjacency_wf (adjacency_list (ingest txs init)).
Proof.
  apply (ingest_ind (fun g => adjacency_wf (adjacency_list g))).
  - split; [apply wf_empty|intros ? ? []].
  - intros t g. apply adjacency_wf_add_transaction.
Qed.

Lemma In_entries adj a b c :
  In (a, (b, c)) (entries adj) <-> exists d, In (a, d) adj /\ In (b, c) d.
Proof.
  unfold entries, items. rewrite in_flat_map. split.
  - intros [[a' d] [Hd H]]. simpl in H. apply in_map_iff in H.
    destruct H as [[b' c'] [[= <- <- <-] Hb]]. eauto.
  - intros [d [Hd Hb]]. exists (a, d). split; auto.
    simpl. apply in_map_iff. exists (b, c). auto.
Qed.

Lemma In_entries_lookup2 adj a b c :
  adjacency_wf adj ->
  (In (a, (b, c)) (entries adj) <-> lookup2 adj a b = Some c).
Proof.
  intros [Hout Hin]. rewrite In_entries. unfold lookup2. split.
  - intros [d [Hd Hb]]. rewrite (In_get _ _ _ Hout Hd).
    apply In_get; eauto.
  - destruct (Dict.get a adj) as [d|] eqn:G; [|discriminate].
    intros Hb. exists d. split; now apply get_In.
Qed.

(** ** The enumeration of pairs in [get_top3_product_pairs] *)

Lemma collect_pairs_entries adj :
  collect_pairs adj = fold_left visit_entry (entries adj) (mkAcc [] []).
Proof.
  unfold collect_pairs, entries, items.
  generalize (mkAcc [] []).
  induction adj as [|[a d] r IH]; intros acc; simpl; auto.
  rewrite fold_left_app, IH. f_equal.
  unfold visit_item, items. simpl.
  clear IH. revert acc.
  induction d as [|nb d IHd]; intros acc; simpl; auto.
Qed.

Lemma sorted_pair_leb a b :
  sorted_pair a b = if String.leb a b then (a, b) else (b, a).
Proof.
  unfold sorted_pair, sorted_str. simpl. now destruct (String.leb a b).
Qed.

Lemma pair_eqb_eq p q : pair_eqb p q = true <-> p = q.
Proof.
  unfold pair_eqb. destruct p as [a b], q as [c d]. simpl.
  rewrite andb_true_iff, !String.eqb_eq. split; [intros [-> ->]|intros [= -> ->]]; auto.
Qed.

Lemma pair_in_In p s : pair_in p s = true <-> In p s.
Proof.
  unfold pair_in. rewrite existsb_exists. split.
  - intros [q [Hq E]]. apply pair_eqb_eq in E. now subst.
  - intros H. exists p. split; auto. now apply pair_eqb_eq.
Qed.

(** The list and the set grow together, without a pair twice; each
    listed pair comes from an entry, and each entry has its pair listed. *)
Lemma collect_invariant l :
  let acc := fold_left visit_entry l (mkAcc [] []) in
  (forall p, In p (processed_pairs acc) <-> In p (map fst (all_pairs acc)))
  /\ NoDup (map fst (all_pairs acc))
  /\ (forall p c, In (p, c) (all_pairs acc) ->
        exists a b, In (a, (b, c)) l /\ p = sorted_pair a b)
  /\ (forall a b c, In (a, (b, c)) l ->
        In (sorted_pair a b) (map fst (all_pairs acc))).
Proof.
  induction l as [|[a [b c]] l IH] using rev_ind; simpl.
  - repeat split; try tauto; constructor.
  - rewrite fold_left_app. simpl.
    set (acc := fold_left visit_entry l (mkAcc [] [])) in *.
    destruct IH as (Hset & Hnd & Hfrom & Hall).
    unfold visit_entry at 1 2 3 4 5. unfold visit_pair. simpl.
    destruct (pair_in (sorted_pair a b) (processed_pairs acc)) eqn:E.
    + apply pair_in_In in E.
      repeat split; auto; try apply Hset.
      * intros p c' Hp. destruct (Hfrom p c' Hp) as (a' & b' & Hin & ->).
        exists a', b'. split; auto. apply in_or_app. now left.
      * intros a' b' c' Hin. apply in_app_or in Hin.
        destruct Hin as [Hin|[[= -> -> ->]|[]]]; eauto.
        now apply Hset.
    + assert (Hnew : ~ In (sorted_pair a b) (map fst (all_pairs acc))).
      { intros H. apply Hset, pair_in_In in H. congruence. }
      simpl. rewrite map_app. simpl. repeat split.
      * intros [<-|H]; apply in_or_app; [right; now left|left; now apply Hset].
      * intros H. apply in_app_or in H. destruct H as [H|[<-|[]]]; auto.
        right. now apply Hset.
      * apply NoDup_rev in Hnd.
        rewrite <- (rev_involutive (_ ++ _)). apply NoDup_rev.
        rewrite rev_app_distr. simpl. constructor; auto.
        now rewrite <- in_rev.
      * intros p c' Hp. apply in_app_or in Hp.
        destruct Hp as [Hp|[[= <- <-]|[]]].
        -- destruct (Hfrom p c' Hp) as (a' & b' & Hin & ->).
           exists a', b'. split; auto. apply in_or_app. now left.
        -- exists a, b. split; auto. apply in_or_app. right. now left.
      * intros a' b' c' Hin. apply in_or_app. apply in_app_or in Hin.
        destruct Hin as [Hin|[[= -> -> ->]|[]]]; [left; eauto|right; now left].
Qed.

(** ** First meetings *)

Lemma before_app_r {A : Type} (x y : A) l l' :
  before x y l -> before x y (l ++ l').
Proof.
  intros (l1 & l2 & l3 & ->). exists l1, l2, (l3 ++ l').
  now rewrite <- !app_assoc, <- !app_comm_cons, <- app_assoc.
Qed.

Lemma before_cons {A : Type} (a x y : A) l :
  before x y l -> before x y (a :: l).
Proof. intros (l1 & l2 & l3 & ->). now exists (a :: l1), l2, l3. Qed.

Lemma before_filter {A : Type} (P : A -> bool) x y l :
  P x = true -> P y = true -> before x y l -> before x y (filter P l).
Proof.
  intros Px Py (l1 & l2 & l3 & ->).
  exists (filter P l1), (filter P l2), (filter P l3).
  rewrite filter_app. simpl. rewrite Px, filter_app. simpl. now rewrite Py.
Qed.

Lemma before_filter_inv {A : Type} (P : A -> bool) x y l :
  before x y (filter P l) -> before x y l.
Proof.
  induction l as [|a l IH]; simpl.
  - intros (l1 & l2 & l3 & H). now destruct l1.
  - destruct (P a) eqn:Pa; [|intros H; now apply before_cons, IH].
    intros (l1 & l2 & l3 & H). destruct l1 as [|b l1]; simpl in H.
    + injection H as -> H.
      assert (Hy : In y l).
      { assert (Hin : In y (filter P l)).
        { rewrite H. apply in_or_app. right. now left. }
        now apply filter_In in Hin. }
      apply in_split in Hy. destruct Hy as (m1 & m2 & ->).
      now exists [], m1, m2.
    + injection H as -> H. apply before_cons, IH. now exists l1, l2, l3.
Qed.

Lemma before_map_inv {A B : Type} (f : A -> B) a b l :
  before a b (map f l) ->
  exists x y, f x = a /\ f y = b /\ before x y l.
Proof.
  intros (l1 & l2 & l3 & H).
  apply map_eq_app in H. destruct H as (m1 & r1 & -> & <- & H).
  apply map_eq_cons in H. destruct H as (x & r2 & -> & <- & H).
  apply map_eq_app in H. destruct H as (m2 & r3 & -> & <- & H).
  apply map_eq_cons in H. destruct H as (y & m3 & -> & <- & <-).
  exists x, y. repeat split. now exists m1, m2, m3.
Qed.

Lemma keys_determine_entry {K V : Type} (l : list (K * V)) a b :
  NoDup (map fst l) -> In a l -> In b l -> fst a = fst b -> a = b.
Proof.
  induction l as [|e l IH]; simpl; intros Hnd Ha Hb Hab; [tauto|].
  inversion Hnd as [|? ? He Hl]; subst.
  destruct Ha as [->|Ha], Hb as [->|Hb]; auto.
  - exfalso. apply He. rewrite Hab. now apply in_map.
  - exfalso. apply He. rewrite <- Hab. now apply in_map.
Qed.

Lemma first_met_snoc {A : Type} (l : list A) e x i :
  first_met (l ++ [e]) x i ->
  ((i < List.length l)%nat /\ first_met l x i)
  \/ (i = List.length l /\ x = e /\ ~ In x l).
Proof.
  intros [Hi Hfirst].
  destruct (Nat.lt_ge_cases i (List.length l)) as [Hlt|Hge].
  - left. split; auto. split.
    + now rewrite nth_error_app1 in Hi.
    + intros j Hj. specialize (Hfirst j Hj).
      rewrite nth_error_app1 in Hfirst by lia. exact Hfirst.
  - right.
    assert (Hlen : (i < List.length (l ++ [e]))%nat).
    { apply nth_error_Some. congruence. }
    rewrite length_app in Hlen. simpl in Hlen.
    assert (i = List.length l) by lia. subst i.
    rewrite nth_error_app2, Nat.sub_diag in Hi by lia.
    injection Hi as <-. repeat split; auto.
    intros Hin. apply In_nth_error in Hin. destruct Hin as [j Hj].
    assert (j < List.length l)%nat by (apply nth_error_Some; congruence).
    apply (Hfirst j); auto. now rewrite nth_error_app1.
Qed.

Section FirstOccurrencesFacts.

Context {K : Type} (eq_dec : forall x y : K, {x = y} + {x <> y}).

Lemma first_occurrences_snoc l e :
  first_occurrences eq_dec (l ++ [e])
  = append_new eq_dec (first_occurrences eq_dec l) e.
Proof. unfold first_occurrences. now rewrite fold_left_app. Qed.

Lemma first_occurrences_In l k :
  In k (first_occurrences eq_dec l) <-> In k l.
Proof.
  induction l as [|e l IH] using rev_ind; [reflexivity|].
  rewrite first_occurrences_snoc. unfold append_new.
  destruct (in_dec eq_dec e (first_occurrences eq_dec l)) as [Hin|Hout].
  - rewrite IH, in_app_iff. simpl. split; [tauto|].
    intros [H|[<-|[]]]; auto. now apply IH.
  - rewrite !in_app_iff, IH. reflexivity.
Qed.

Lemma first_occurrences_NoDup l : NoDup (first_occurrences eq_dec l).
Proof.
  induction l as [|e l IH] using rev_ind; [constructor|].
  rewrite first_occurrences_snoc. unfold append_new.
  destruct (in_dec eq_dec e (first_occurrences eq_dec l)) as [Hin|Hout]; auto.
  apply NoDup_rev in IH.
  rewrite <- (rev_involutive (_ ++ [e])). apply NoDup_rev.
  rewrite rev_app_distr. simpl. constructor; auto. now rewrite <- in_rev.
Qed.

(** Of two elements the one met first stands first. *)
Lemma first_occurrences_order l : forall x y i j,
  first_met l x i -> first_met l y j -> (i < j)%nat ->
  before x y (first_occurrences eq_dec l).
Proof.
  induction l as [|e l IH] using rev_ind; intros x y i j Hx Hy Hij.
  - destruct Hx as [Hx _]. now destruct i.
  - rewrite first_occurrences_snoc.
    assert (Hkeep : forall ks, before x y ks ->
                      before x y (append_new eq_dec ks e)).
    { intros ks H. unfold append_new.
      destruct (in_dec eq_dec e ks); auto. now apply before_app_r. }
    apply first_met_snoc in Hx, Hy.
    destruct Hx as [[Hi Hx]|[-> _]].
    + destruct Hy as [[Hj Hy]|[-> [-> Hnew]]].
      * eapply Hkeep, IH; eauto.
      * unfold append_new.
        destruct (in_dec eq_dec e (first_occurrences eq_dec l)) as [Hin|_].
        -- apply (proj1 (first_occurrences_In l e)) in Hin. tauto.
        -- assert (Hin : In x (first_occurrences eq_dec l)).
           { apply first_occurrences_In. destruct Hx as [Hx _].
             now apply nth_error_In in Hx. }
           apply in_split in Hin. destruct Hin as (l1 & l2 & ->).
           exists l1, l2, []. now rewrite <- app_assoc.
    + destruct Hy as [[Hj _]|[-> _]]; lia.
Qed.

(** The order of a stable descending sort of entries whose keys stand
    in the order of first meeting: of two entries of equal count the one
    whose key is met first stands first. *)
Lemma tie_order_first_met (walk : list K) (es l : list (K * Z)) :
  tie_ordered es l ->
  NoDup (map fst es) ->
  map fst es = first_occurrences eq_dec walk ->
  forall x y c i j,
    In (x, c) l -> In (y, c) l ->
    first_met walk x i -> first_met walk y j -> (i < j)%nat ->
    before (x, c) (y, c) l.
Proof.
  intros (Hp & _ & Hst) Hnd Hkeys x y c i j Hx Hy Hi Hj Hij.
  pose proof (first_occurrences_order walk x y i j Hi Hj Hij) as Hb.
  rewrite <- Hkeys in Hb. apply before_map_inv in Hb.
  destruct Hb as (ex & ey & Hex & Hey & Hb).
  apply (Permutation_in _ Hp) in Hx, Hy.
  assert (Hex' : ex = (x, c)).
  { destruct Hb as (l1 & l2 & l3 & Heq).
    apply (keys_determine_entry es); auto.
    rewrite Heq. apply in_or_app. right. now left. }
  assert (Hey' : ey = (y, c)).
  { destruct Hb as (l1 & l2 & l3 & Heq).
    apply (keys_determine_entry es); auto.
    rewrite Heq. apply in_or_app. right. right.
    apply in_or_app. right. now left. }
  subst ex ey.
  apply (before_filter_inv (fun e => snd e =? c)). rewrite Hst.
  apply before_filter; auto; simpl; apply Z.eqb_refl.
Qed.

End FirstOccurrencesFacts.

(** The list of pairs of [get_top3_product_pairs] holds the pairs in the
    order the walk over the adjacency list first meets them. *)
Lemma collected_pairs_first_occurrences l :
  map fst (all_pairs (fold_left visit_entry l (mkAcc [] [])))
  = first_occurrences pair_dec (map pair_of_entry l).
Proof.
  induction l as [|e l IH] using rev_ind; [reflexivity|].
  rewrite map_app. cbn [map].
  rewrite first_occurrences_snoc, fold_left_app. cbn [fold_left].
  destruct (collect_invariant l) as (Hset & _).
  set (acc := fold_left visit_entry l (mkAcc [] [])) in *.
  unfold visit_entry at 1. unfold visit_pair. fold (pair_of_entry e).
  unfold append_new. rewrite <- IH.
  destruct (pair_in (pair_of_entry e) (processed_pairs acc)) eqn:E;
    destruct (in_dec pair_dec (pair_of_entry e) (map fst (all_pairs acc)))
      as [Hin|Hout]; simpl.
  - reflexivity.
  - exfalso. apply Hout, Hset. now apply pair_in_In.
  - exfalso. apply Hset, pair_in_In in Hin. congruence.
  - now rewrite map_app.
Qed.

Lemma listed_pairs_walk adj :
  map fst (all_pairs (collect_pairs adj))
  = first_occurrences pair_dec (walk_pairs adj).
Proof.
  rewrite collect_pairs_entries. apply collected_pairs_first_occurrences.
Qed.

(** C3 as the specification words it fails: the method has no
    parameter [k] and always cuts to three pairs, and two pairs of equal
    count come out in the order the adjacency list meets them, here
    [("m", "z")] before [("a", "b")]. *)
Lemma top_pairs_not_lexicographic :
  value_of (get_top3_product_pairs tie_pairs_graph)
  = Some [(("m", "z"), 1); (("a", "b"), 1)]
  /\ spec_top_pairs tie_pairs_graph 3 = [(("a", "b"), 1); (("m", "z"), 1)]
  /\ value_of (get_top3_product_pairs tie_pairs_graph)
     <> Some (spec_top_pairs tie_pairs_graph 3)
  /\ List.length (spec_top_pairs test_graph 5) = 5%nat
  /\ option_map (@List.length _) (value_of (get_top3_product_pairs test_graph))
     = Some 3%nat.
Proof. vm_compute. repeat split; discriminate. Qed.

(** C3, amended.  On a graph built by [add_transaction] calls,
    [get_top3_product_pairs] returns the first three entries of a list
    that holds each unordered pair with a recorded count exactly once,
    as the pair of its two members in ascending order together with
    that count, sorted by descending count, and in which of two pairs of
    equal count the one that the walk over the adjacency list (keys in
    dictionary order, under each key its neighbours in dictionary order)
    meets first stands first; with at most three pairs all of them are
    returned. *)
Theorem top3_pairs_order (txs : list (list string)) :
  let g := ingest txs init in
  exists sorted_all,
    get_top3_product_pairs g = Ok (firstn 3 sorted_all) g
    /\ NoDup (map fst sorted_all)
    /\ (forall x y c, In ((x, y), c) sorted_all
                      <-> co g x y = Some c /\ String.leb x y = true)
    /\ StronglySorted (fun p q => snd q <= snd p) sorted_all
    /\ (forall p q c i j,
          In (p, c) sorted_all -> In (q, c) sorted_all ->
          first_met (walk_pairs (adjacency_list g)) p i ->
          first_met (walk_pairs (adjacency_list g)) q j ->
          (i < j)%nat ->
          before (p, c) (q, c) sorted_all)
    /\ ((List.length sorted_all <= 3)%nat -> firstn 3 sorted_all = sorted_all).
Proof.
  intros g.
  set (listed := all_pairs (collect_pairs (adjacency_list g))).
  exists (sorted_by_count_desc listed).
  destruct (sorted_by_count_desc_spec listed) as (Hp & Hs & Hst).
  assert (Hwf : adjacency_wf (adjacency_list g)) by apply adjacency_wf_ingest.
  assert (Hsym : symmetric g) by apply symmetric_ingest.
  pose proof (collect_invariant (entries (adjacency_list g))) as Hinv.
  cbv zeta in Hinv. rewrite <- collect_pairs_entries in Hinv. fold listed in Hinv.
  destruct Hinv as (_ & Hnd & Hfrom & Hall).
  assert (Hfwd : forall x y c, In ((x, y), c) listed ->
                   co g x y = Some c /\ String.leb x y = true).
  { intros x y c Hin. destruct (Hfrom _ _ Hin) as (a & b & Hab & Hxy).
    apply (In_entries_lookup2 _ _ _ _ Hwf) in Hab.
    rewrite sorted_pair_leb in Hxy.
    destruct (String.leb a b) eqn:E; injection Hxy as -> ->.
    - auto.
    - split; [rewrite Hsym; exact Hab|].
      destruct (String.leb_total a b) as [H|H]; congruence. }
  split; [reflexivity|]. split.
  { eapply Permutation_NoDup; [|exact Hnd].
    apply Permutation_map, Permutation_sym, Hp. }
  split.
  { intros x y c. split.
    - intros Hin. apply Hfwd. eapply Permutation_in; [exact Hp|exact Hin].
    - intros [Hco Hle].
      assert (Hent := proj2 (In_entries_lookup2 _ _ _ _ Hwf) Hco).
      apply Hall in Hent. rewrite sorted_pair_leb, Hle in Hent.
      apply in_map_iff in Hent. destruct Hent as [[[x' y'] c'] [Heq Hin]].
      simpl in Heq. injection Heq as -> ->.
      destruct (Hfwd _ _ _ Hin) as [Hco' _].
      assert (c' = c) by congruence. subst c'.
      eapply Permutation_in; [apply Permutation_sym, Hp|exact Hin]. }
  split; [exact Hs|]. split.
  { apply (tie_order_first_met pair_dec (walk_pairs (adjacency_list g)) listed).
    - apply sorted_by_count_desc_tie_ordered.
    - exact Hnd.
    - apply listed_pairs_walk. }
  intros Hlen. now apply firstn_all2.
Qed.

(** The pair ingested last is met by the walk before two pairs ingested
    earlier. *)
Example walk_order_trace :
  Dict.keys (adjacency_list (ingest walk_order_transactions init))
  = ["a"; "b"; "c"; "d"; "e"; "f"]
  /\ walk_pairs (adjacency_list (ingest walk_order_transactions init))
     = [("a", "b"); ("a", "c"); ("a", "b"); ("c", "d"); ("a", "c");
        ("c", "d"); ("e", "f"); ("e", "f")]
  /\ value_of (get_top3_product_pairs (ingest walk_order_transactions init))
     = Some [(("a", "b"), 1); (("a", "c"), 1); (("c", "d"), 1)].
Proof. vm_compute. auto. Qed.

(** ** Insertion order *)

Lemma extends_refl adj : extends adj adj.
Proof.
  split.
  - exists []. now rewrite app_nil_r.
  - intros a d H. exists d, []. now rewrite app_nil_r.
Qed.

Lemma extends_trans adj1 adj2 adj3 :
  extends adj1 adj2 -> extends adj2 adj3 -> extends adj1 adj3.
Proof.
  intros [[n1 H1] K1] [[n2 H2] K2]. split.
  - exists (n1 ++ n2). now rewrite H2, H1, app_assoc.
  - intros a d Hd.
    destruct (K1 a d Hd) as (d' & m1 & Hd' & E1).
    destruct (K2 a d' Hd') as (d'' & m2 & Hd'' & E2).
    exists d'', (m1 ++ m2). split; auto. now rewrite E2, E1, app_assoc.
Qed.

Lemma keys_set_extends {V : Type} k (v : V) d :
  exists new, Dict.keys (Dict.set k v d) = Dict.keys d ++ new.
Proof.
  rewrite keys_set. destruct (Dict.contains k d); eauto.
  exists []. now rewrite app_nil_r.
Qed.

Lemma extends_bump a b adj : extends adj (bump a b adj).
Proof.
  unfold bump. split; [apply keys_set_extends|].
  intros k d Hd. rewrite get_set.
  destruct (String.eqb k a) eqn:E.
  - apply String.eqb_eq in E. subst k. rewrite Hd.
    destruct (keys_set_extends b
                (match Dict.get b d with Some v => v + 1 | None => 1 end) d)
      as [new Hnew].
    eauto.
  - exists d, []. now rewrite app_nil_r.
Qed.

Lemma extends_add_transaction t g :
  extends (adjacency_list g) (adjacency_list (add_transaction_state t g)).
Proof.
  unfold add_transaction_state.
  destruct (List.length t <? 2)%nat; simpl; [apply extends_refl|].
  generalize (pairs (sorted_str t)). intros ps.
  generalize (adjacency_list g).
  induction ps as [|p r IH]; intros adj; simpl; [apply extends_refl|].
  eapply extends_trans; [|apply IH].
  unfold bump_both.
  eapply extends_trans; apply extends_bump.
Qed.

(** ** The repository's unit tests, run on the model *)

Example test_get_top_co_purchase :
  value_of (get_top_co_purchase "whole milk" 3 test_graph)
  = Some [("other vegetables", 2); ("yogurt", 2); ("rolls/buns", 1)]
  /\ value_of (get_top_co_purchase "bread" 5 test_graph) = Some [].
Proof. vm_compute. auto. Qed.

Example test_get_top3_product_pairs :
  value_of (get_top3_product_pairs test_graph)
  = Some [ (("other vegetables", "rolls/buns"), 2);
           (("other vegetables", "whole milk"), 2);
           (("whole milk", "yogurt"), 2) ].
Proof. vm_compute. reflexivity. Qed.

Example test_check_co_purchase_relation :
  value_of (check_co_purchase_relation "whole milk" "soda" test_graph) = Some 1
  /\ value_of (check_co_purchase_relation "bread" "milk" test_graph) = Some 0.
Proof. vm_compute. auto. Qed.

Example test_filter_by_category :
  (exists dairy_filtered nbrs,
     value_of (filter_by_category "dairy" test_graph) = Some dairy_filtered
     /\ Dict.get "whole milk" dairy_filtered = Some nbrs
     /\ Dict.contains "yogurt" nbrs = true)
  /\ value_of (filter_by_category "seafood" test_graph) = Some Dict.empty.
Proof.
  split; [|vm_compute; reflexivity].
  eexists. eexists. vm_compute. repeat split; reflexivity.
Qed.

Example test_get_recommendation :
  value_of (get_recommendation ["whole milk"] 2 test_graph)
  = Some [("other vegetables", 2); ("yogurt", 2)]
  /\ value_of (get_recommendation ["whole milk"; "yogurt"] 1 test_graph)
     = Some [("other vegetables", 2)]
  /\ value_of (get_recommendation [] 1 test_graph) = Some [].
Proof. vm_compute. auto. Qed.

(** A single-product transaction only counts the product. *)
Example single_product_transaction :
  freq test_graph "bread" = 1
  /\ Dict.contains "bread" (adjacency_list test_graph) = false.
Proof. vm_compute. auto. Qed.

(** * Further properties of the graph *)

(** ** One transaction, any transaction *)

(** X1. [add_transaction] never raises.  It adds to the frequency of an item
    the number of times the item stands in the transaction, and to the
    count of a pair the product of the numbers of occurrences of its two
    members (for a pair of twice the same item: [n * n - n]); a count
    that gets nothing stays as it is, defined or not.  Nothing is
    deduplicated on the way. *)
Theorem add_transaction_effect (t : list string) (g : Graph) :
  exists g',
    add_transaction t g = Ok tt g'
    /\ (forall a, freq g' a = freq g a + occurrences a t)
    /\ (forall a b,
          co g' a b
          = if occurrences a t * occurrences b t
               - (if String.eqb a b then occurrences a t else 0) =? 0
            then co g a b
            else Some (weight g a b
                       + (occurrences a t * occurrences b t
                          - (if String.eqb a b then occurrences a t else 0))))
    /\ product_categories g' = product_categories g.
Proof.
  exists (add_transaction_state t g).
  split; [apply add_transaction_run|]. split; [|split].
  - intros a. apply freq_add_transaction.
  - intros a b. apply co_add_transaction.
  - apply categories_add_transaction.
Qed.

Lemma adjacency_short t g :
  (List.length t < 2)%nat ->
  adjacency_list (add_transaction_state t g) = adjacency_list g.
Proof.
  intros H. unfold add_transaction_state.
  apply Nat.ltb_lt in H. now rewrite H.
Qed.

(** X2. A transaction of fewer than two items only counts its item: the
    adjacency list is left as it is, without even an empty entry for the
    item, and the empty transaction changes nothing at all. *)
Theorem short_transaction (t : list string) (g : Graph)
  (Hshort : (List.length t < 2)%nat) :
  exists g',
    add_transaction t g = Ok tt g'
    /\ adjacency_list g' = adjacency_list g
    /\ (forall a, freq g' a = freq g a + (if str_in a t then 1 else 0))
    /\ (t = [] -> g' = g).
Proof.
  exists (add_transaction_state t g).
  split; [apply add_transaction_run|].
  split; [now apply adjacency_short|]. split.
  - intros a. rewrite freq_add_transaction. f_equal.
    apply occurrences_NoDup.
    destruct t as [|x [|y r]]; simpl in Hshort; try lia;
      repeat constructor; simpl; tauto.
  - intros ->. unfold add_transaction_state. simpl.
    apply with_frequency_id.
Qed.

Lemma short_transaction_witness :
  (List.length ["bread"] < 2)%nat
  /\ exists g',
       add_transaction ["bread"] init = Ok tt g'
       /\ adjacency_list g' = adjacency_list init.
Proof.
  assert (H : (List.length ["bread"] < 2)%nat) by (simpl; lia).
  split; [exact H|].
  destruct (short_transaction ["bread"] init H) as (g' & Hrun & Hadj & _).
  exists g'. split; [exact Hrun|exact Hadj].
Defined.

(** ** Sequences of transactions *)

Lemma freq_ingest txs : forall g a,
  freq (ingest txs g) a = freq g a + total_occurrences a txs.
Proof.
  induction txs as [|t r IH]; intros g a.
  - simpl. lia.
  - rewrite ingest_cons, IH, freq_add_transaction. simpl. lia.
Qed.

Lemma total_increments_nonneg txs a b : 0 <= total_increments txs a b.
Proof.
  induction txs as [|t r IH]; simpl; [lia|].
  pose proof (increments_nonneg t a b). lia.
Qed.

Lemma weight_nonneg_step t g a b :
  0 <= weight g a b -> 0 <= weight (add_transaction_state t g) a b.
Proof.
  intros H. rewrite weight_add_transaction.
  pose proof (increments_nonneg t a b). lia.
Qed.

Lemma weight_ingest txs : forall g a b,
  weight (ingest txs g) a b = weight g a b + total_increments txs a b.
Proof.
  induction txs as [|t r IH]; intros g a b.
  - simpl. lia.
  - rewrite ingest_cons, IH, weight_add_transaction. simpl. lia.
Qed.

Lemma co_ingest txs : forall g a b,
  co (ingest txs g) a b
  = if total_increments txs a b =? 0 then co g a b
    else Some (weight g a b + total_increments txs a b).
Proof.
  induction txs as [|t r IH]; intros g a b.
  - reflexivity.
  - rewrite ingest_cons, IH, weight_add_transaction, co_add_transaction.
    cbn [total_increments fold_right]. fold (total_increments r a b).
    pose proof (increments_nonneg t a b) as H1.
    pose proof (total_increments_nonneg r a b) as H2.
    destruct (total_increments r a b =? 0) eqn:E1;
      destruct (increments t a b =? 0) eqn:E2;
      destruct (increments t a b + total_increments r a b =? 0) eqn:E3;
      rewrite ?Z.eqb_eq, ?Z.eqb_neq in *; try lia; auto; f_equal; lia.
Qed.

Lemma total_occurrences_containing a txs :
  Forall (@NoDup string) txs -> total_occurrences a txs = containing a txs.
Proof.
  unfold containing. induction 1 as [|t r Ht Hr IH]; simpl; auto.
  rewrite IH, occurrences_NoDup by exact Ht.
  destruct (str_in a t); simpl; lia.
Qed.

Lemma total_increments_containing a b txs :
  Forall (@NoDup string) txs -> a <> b ->
  total_increments txs a b = containing_both a b txs.
Proof.
  unfold containing_both. intros H Hab.
  apply String.eqb_neq in Hab.
  induction H as [|t r Ht Hr IH]; simpl; auto.
  rewrite IH, increments_NoDup by exact Ht. rewrite Hab.
  destruct (str_in a t && str_in b t); simpl; lia.
Qed.

Lemma total_increments_self a txs :
  Forall (@NoDup string) txs -> total_increments txs a a = 0.
Proof.
  induction 1 as [|t r Ht Hr IH]; simpl; auto.
  rewrite IH, increments_NoDup by exact Ht. rewrite String.eqb_refl.
  now destruct (str_in a t).
Qed.

(** X3. On deduplicated transactions the frequency of an item is the number
    of transactions that hold it, and the count of a pair of distinct
    items is the number of transactions that hold both; the pair has an
    entry exactly when there is such a transaction. *)
Theorem counts_are_transaction_counts (txs : list (list string))
  (Hdedup : Forall (@NoDup string) txs) (a b : string) (Hab : a <> b) :
  let g := ingest txs init in
  freq g a = containing a txs
  /\ co g a b = (if containing_both a b txs =? 0 then None
                 else Some (containing_both a b txs))
  /\ check_co_purchase_relation a b g = Ok (containing_both a b txs) g.
Proof.
  intros g. subst g.
  assert (Hco : co (ingest txs init) a b
                = if containing_both a b txs =? 0 then None
                  else Some (containing_both a b txs)).
  { rewrite co_ingest, total_increments_containing by assumption.
    destruct (containing_both a b txs =? 0); auto. }
  split; [|split; [exact Hco|]].
  - rewrite freq_ingest, total_occurrences_containing by assumption.
    reflexivity.
  - rewrite check_co_purchase_relation_run. unfold weight. rewrite Hco.
    destruct (containing_both a b txs =? 0) eqn:E; auto.
    apply Z.eqb_eq in E. now rewrite E.
Qed.

Lemma counts_are_transaction_counts_witness :
  Forall (@NoDup string) test_transactions
  /\ "whole milk" <> "yogurt"
  /\ freq test_graph "whole milk" = containing "whole milk" test_transactions
  /\ check_co_purchase_relation "whole milk" "yogurt" test_graph
     = Ok (containing_both "whole milk" "yogurt" test_transactions) test_graph.
Proof.
  assert (Hd : Forall (@NoDup string) test_transactions).
  { repeat constructor; simpl; intuition discriminate. }
  assert (Hab : "whole milk" <> "yogurt") by discriminate.
  split; [exact Hd|]. split; [exact Hab|].
  pose proof (counts_are_transaction_counts test_transactions Hd
                "whole milk" "yogurt" Hab) as H.
  cbv zeta in H. destruct H as (Hf & _ & Hc).
  split; [exact Hf|exact Hc].
Defined.

(** X4. On deduplicated transactions no item becomes its own neighbour. *)
Theorem no_self_neighbour (txs : list (list string))
  (Hdedup : Forall (@NoDup string) txs) (a : string) :
  co (ingest txs init) a a = None
  /\ check_co_purchase_relation a a (ingest txs init)
     = Ok 0 (ingest txs init).
Proof.
  assert (H : co (ingest txs init) a a = None).
  { rewrite co_ingest, total_increments_self by assumption. reflexivity. }
  split; [exact H|].
  rewrite check_co_purchase_relation_run. unfold weight. now rewrite H.
Qed.

Lemma no_self_neighbour_witness :
  Forall (@NoDup string) test_transactions
  /\ co test_graph "whole milk" "whole milk" = None.
Proof.
  assert (Hd : Forall (@NoDup string) test_transactions).
  { repeat constructor; simpl; intuition discriminate. }
  split; [exact Hd|].
  exact (proj1 (no_self_neighbour test_transactions Hd "whole milk")).
Defined.

(** X5. Counts only grow: whatever is ingested, from whatever state, no
    frequency and no pair count gets smaller, a pair that has an entry
    keeps one, and a key of the adjacency list stays a key. *)
Theorem counts_never_decrease (txs : list (list string)) (g : Graph)
  (a b : string) :
  let g' := ingest txs g in
  freq g a <= freq g' a
  /\ weight g a b <= weight g' a b
  /\ (forall n, co g a b = Some n -> exists m, co g' a b = Some m /\ n <= m)
  /\ (Dict.contains a (adjacency_list g) = true ->
      Dict.contains a (adjacency_list g') = true).
Proof.
  intros g'. subst g'.
  pose proof (total_increments_nonneg txs a b) as Hi.
  assert (Ho : 0 <= total_occurrences a txs).
  { induction txs as [|t r IH]; simpl; [lia|].
    pose proof (occurrences_nonneg a t).
    assert (0 <= total_increments r a b) by apply total_increments_nonneg.
    specialize (IH H0). lia. }
  split; [rewrite freq_ingest; lia|].
  split; [rewrite weight_ingest; lia|]. split.
  - intros n Hn. rewrite co_ingest. unfold weight. rewrite Hn. simpl.
    destruct (total_increments txs a b =? 0); eexists; split; eauto; lia.
  - apply (ingest_ind
             (fun g' => Dict.contains a (adjacency_list g) = true ->
                        Dict.contains a (adjacency_list g') = true)); auto.
    intros t g' IH Ha. specialize (IH Ha).
    rewrite contains_get in *.
    destruct (Dict.get a (adjacency_list g')) as [d|] eqn:G; [|discriminate].
    destruct (extends_add_transaction t g') as [_ Hk].
    destruct (Hk a d G) as (d' & new & Hd' & _). now rewrite Hd'.
Qed.

(** ** Shape of the reachable states *)

Lemma set_not_empty {V : Type} k (v : V) d : Dict.set k v d <> [].
Proof.
  destruct d as [|[k0 v0] r]; simpl; [discriminate|].
  destruct (String.eqb k0 k); discriminate.
Qed.

Lemma no_empty_entry_bump a b adj :
  (forall k d, Dict.get k adj = Some d -> d <> []) ->
  forall k d, Dict.get k (bump a b adj) = Some d -> d <> [].
Proof.
  intros H k d. unfold bump. rewrite get_set.
  destruct (String.eqb k a).
  - intros [= <-]. apply set_not_empty.
  - apply H.
Qed.

Lemma no_empty_entry_ingest txs k d :
  Dict.get k (adjacency_list (ingest txs init)) = Some d -> d <> [].
Proof.
  revert k d.
  apply (ingest_ind
           (fun g => forall k d, Dict.get k (adjacency_list g) = Some d ->
                                 d <> [])).
  - intros k d. discriminate.
  - intros t g IH. unfold add_transaction_state.
    destruct (List.length t <? 2)%nat; simpl; auto.
    generalize (pairs (sorted_str t)). intros ps. revert IH.
    generalize (adjacency_list g).
    induction ps as [|p r IHp]; intros adj H; simpl; auto.
    apply IHp. unfold bump_both.
    now apply no_empty_entry_bump, no_empty_entry_bump.
Qed.

Lemma frequency_entries_positive txs a n :
  Dict.get a (product_frequency (ingest txs init)) = Some n -> 1 <= n.
Proof.
  revert a n.
  apply (ingest_ind
           (fun g => forall a n, Dict.get a (product_frequency g) = Some n ->
                                 1 <= n)).
  - intros a n. discriminate.
  - intros t g IH.
    assert (H : forall c,
      (forall a n, Dict.get a c = Some n -> 1 <= n) ->
      forall a n,
        Dict.get a (fold_left (fun c x => Counter.add x 1 c) t c) = Some n ->
        1 <= n).
    { induction t as [|x r IHt]; intros c Hc; simpl; auto.
      apply IHt. intros a n. unfold Counter.add. rewrite get_set.
      destruct (String.eqb a x); [|apply Hc].
      intros [= <-]. unfold Counter.get.
      destruct (Dict.get x c) as [v|] eqn:G; [|lia].
      specialize (Hc x v G). lia. }
    unfold add_transaction_state.
    destruct (List.length t <? 2)%nat; simpl; now apply H.
Qed.

(** X6. In a graph built by [add_transaction] calls a stored count is at
    least 1, in the adjacency list and in the frequency counter (a count
    of zero is never stored), and no key of the adjacency list has an
    empty neighbour dictionary. *)
Theorem stored_counts_positive (txs : list (list string)) :
  let g := ingest txs init in
  (forall a b n, co g a b = Some n -> 1 <= n)
  /\ (forall a n, Dict.get a (product_frequency g) = Some n -> 1 <= n)
  /\ (forall a d, Dict.get a (adjacency_list g) = Some d -> d <> Dict.empty)
  /\ (forall a b, exists n, check_co_purchase_relation a b g = Ok n g
                            /\ 0 <= n).
Proof.
  intros g.
  assert (Hco : forall a b n, co g a b = Some n -> 1 <= n).
  { intros a b n. subst g. rewrite co_ingest.
    pose proof (total_increments_nonneg txs a b).
    destruct (total_increments txs a b =? 0) eqn:E.
    - discriminate.
    - apply Z.eqb_neq in E. intros [= <-]. cbv [weight co init lookup2].
      simpl. lia. }
  split; [exact Hco|]. split; [apply frequency_entries_positive|].
  split; [apply no_empty_entry_ingest|].
  intros a b. exists (weight g a b).
  split; [apply check_co_purchase_relation_run|].
  unfold weight. destruct (co g a b) as [n|] eqn:E; simpl; [|lia].
  specialize (Hco a b n E). lia.
Qed.

(** X7. In a graph built by [add_transaction] calls, and for a positive
    [n], the empty answer of
    [get_top_co_purchase] means exactly that the target is no key of the
    adjacency list. *)
Theorem empty_answer_means_unknown (txs : list (list string))
  (target : string) (n : Z) (Hn : 1 <= n) :
  let g := ingest txs init in
  get_top_co_purchase target n g = Ok [] g
  <-> Dict.contains target (adjacency_list g) = false.
Proof.
  intros g. rewrite get_top_co_purchase_run, contains_get.
  unfold top_co_purchase_of.
  destruct (Dict.get target (adjacency_list g)) as [d|] eqn:G.
  - split; [|discriminate]. intros H. exfalso.
    apply (no_empty_entry_ingest txs target d G).
    injection H as H. rewrite slice_to_nonneg in H by lia.
    assert (Hlen : List.length (sorted_by_count_desc (items d)) = List.length d).
    { apply stable_sort_length. }
    destruct (sorted_by_count_desc (items d)) as [|x r]; simpl in Hlen.
    + now destruct d.
    + destruct (Z.to_nat n) eqn:En; [lia|]. discriminate.
  - tauto.
Qed.

Lemma empty_answer_means_unknown_witness :
  1 <= 5
  /\ (get_top_co_purchase "bread" 5 test_graph = Ok [] test_graph
      <-> Dict.contains "bread" (adjacency_list test_graph) = false).
Proof.
  assert (H : 1 <= 5) by lia.
  split; [exact H|].
  exact (empty_answer_means_unknown test_transactions "bread" 5 H).
Defined.

(** ** The counts do not depend on the order of ingestion *)

Lemma total_occurrences_perm a txs txs' :
  Permutation txs txs' -> total_occurrences a txs = total_occurrences a txs'.
Proof. induction 1; simpl; lia. Qed.

Lemma total_increments_perm a b txs txs' :
  Permutation txs txs' -> total_increments txs a b = total_increments txs' a b.
Proof. induction 1; simpl; lia. Qed.

Lemma occurrences_perm a t t' :
  Permutation t t' -> occurrences a t = occurrences a t'.
Proof.
  intros H. unfold occurrences. f_equal. now apply Permutation_count_occ.
Qed.

(** X8. Ingesting the same transactions in another order, or a transaction
    with its items in another order, gives the same frequencies and the
    same pair counts (the order of the dictionaries may differ). *)
Theorem counts_order_independent (g : Graph) :
  (forall txs txs', Permutation txs txs' ->
     forall a b,
       freq (ingest txs g) a = freq (ingest txs' g) a
       /\ co (ingest txs g) a b = co (ingest txs' g) a b)
  /\ (forall t t', Permutation t t' ->
        forall a b,
          freq (state_of (add_transaction t g)) a
          = freq (state_of (add_transaction t' g)) a
          /\ co (state_of (add_transaction t g)) a b
             = co (state_of (add_transaction t' g)) a b).
Proof.
  split.
  - intros txs txs' Hp a b.
    rewrite !freq_ingest, !co_ingest.
    rewrite (total_occurrences_perm a _ _ Hp).
    now rewrite (total_increments_perm a b _ _ Hp).
  - intros t t' Hp a b. rewrite !add_transaction_run. cbn [state_of].
    rewrite !freq_add_transaction, !co_add_transaction.
    unfold increments.
    now rewrite (occurrences_perm a _ _ Hp), (occurrences_perm b _ _ Hp).
Qed.

(** * Further properties of the queries *)

Lemma firstn_firstn_le {A : Type} (l : list A) n m :
  (n <= m)%nat -> firstn n (firstn m l) = firstn n l.
Proof. intros H. rewrite firstn_firstn. f_equal. lia. Qed.

(** X9. Asking for fewer entries gives the beginning of the longer answer,
    for [get_top_co_purchase] and for [get_recommendation]. *)
Theorem shorter_answer_is_prefix (g : Graph) (n m : Z) (Hn : 0 < n)
  (Hnm : n <= m) :
  (forall target, exists rn rm,
     get_top_co_purchase target n g = Ok rn g
     /\ get_top_co_purchase target m g = Ok rm g
     /\ rn = firstn (Z.to_nat n) rm)
  /\ (forall inputs, exists rn rm,
        get_recommendation inputs n g = Ok rn g
        /\ get_recommendation inputs m g = Ok rm g
        /\ rn = firstn (Z.to_nat n) rm).
Proof.
  split.
  - intros target. do 2 eexists.
    rewrite !get_top_co_purchase_run. split; [reflexivity|].
    split; [reflexivity|]. unfold top_co_purchase_of.
    destruct (Dict.get target (adjacency_list g)) as [d|].
    + rewrite !slice_to_nonneg by lia.
      symmetry. apply firstn_firstn_le. lia.
    + now rewrite firstn_nil.
  - intros inputs. do 2 eexists.
    rewrite !get_recommendation_run. split; [reflexivity|].
    split; [reflexivity|]. unfold most_common.
    assert (E1 : (n <=? 0) = false) by (apply Z.leb_gt; lia).
    assert (E2 : (m <=? 0) = false) by (apply Z.leb_gt; lia).
    rewrite E1, E2. symmetry. apply firstn_firstn_le. lia.
Qed.

Lemma shorter_answer_is_prefix_witness :
  0 < 2 /\ 2 <= 3
  /\ exists rn rm,
       get_top_co_purchase "whole milk" 2 test_graph = Ok rn test_graph
       /\ get_top_co_purchase "whole milk" 3 test_graph = Ok rm test_graph
       /\ rn = firstn (Z.to_nat 2) rm.
Proof.
  assert (H1 : 0 < 2) by lia. assert (H2 : 2 <= 3) by lia.
  split; [exact H1|]. split; [exact H2|].
  exact (proj1 (shorter_answer_is_prefix test_graph 2 3 H1 H2) "whole milk").
Defined.

Lemma sorted_split_dominates {A : Type} (R : A -> A -> Prop) (l : list A) n :
  StronglySorted R l ->
  forall x y, In x (firstn n l) -> In y (skipn n l) -> R x y.
Proof.
  intros Hs. revert n. induction Hs as [|a r Hs IH Hall]; intros n x y.
  - rewrite firstn_nil. intros [].
  - destruct n; simpl; [intros []|].
    intros [<-|Hx] Hy.
    + rewrite Forall_forall in Hall. apply Hall.
      rewrite <- (firstn_skipn n r). apply in_or_app. now right.
    + eapply IH; eauto.
Qed.

(** X10. The answer of [get_top_co_purchase] is a best choice: it has
    [min n (number of neighbours)] entries, together with the neighbours
    left out it makes up the target's dictionary, and no neighbour left
    out has a larger count than one that is returned. *)
Theorem top_co_purchase_is_top (g : Graph) (target : string) (n : Z)
  (d : dict Z) (Hn : 0 <= n)
  (Hknown : Dict.get target (adjacency_list g) = Some d) :
  exists r rest,
    get_top_co_purchase target n g = Ok r g
    /\ Permutation (r ++ rest) (items d)
    /\ List.length r = Nat.min (Z.to_nat n) (List.length (items d))
    /\ forall x y, In x r -> In y rest -> snd y <= snd x.
Proof.
  destruct (sorted_by_count_desc_spec (items d)) as (Hp & Hs & _).
  exists (firstn (Z.to_nat n) (sorted_by_count_desc (items d))),
         (skipn (Z.to_nat n) (sorted_by_count_desc (items d))).
  rewrite get_top_co_purchase_run. unfold top_co_purchase_of.
  rewrite Hknown, slice_to_nonneg by exact Hn.
  split; [reflexivity|]. split; [now rewrite firstn_skipn|]. split.
  - rewrite length_firstn. now rewrite (Permutation_length Hp).
  - intros x y Hx Hy.
    exact (sorted_split_dominates _ _ _ Hs x y Hx Hy).
Qed.

Lemma top_co_purchase_is_top_witness :
  0 <= 2
  /\ Dict.get "m" (adjacency_list tie_graph) = Some [("z", 1); ("a", 1)]
  /\ exists r rest,
       get_top_co_purchase "m" 2 tie_graph = Ok r tie_graph
       /\ Permutation (r ++ rest) [("z", 1); ("a", 1)].
Proof.
  assert (Hn : 0 <= 2) by lia.
  assert (Hk : Dict.get "m" (adjacency_list tie_graph)
               = Some [("z", 1); ("a", 1)]) by (vm_compute; reflexivity).
  split; [exact Hn|]. split; [exact Hk|].
  destruct (top_co_purchase_is_top tie_graph "m" 2 _ Hn Hk)
    as (r & rest & Hrun & Hperm & _).
  exists r, rest. split; [exact Hrun|exact Hperm].
Defined.

Lemma wf_inner txs a d :
  Dict.get a (adjacency_list (ingest txs init)) = Some d -> Dict.wf d.
Proof.
  intros H. destruct (adjacency_wf_ingest txs) as [_ Hin].
  apply (Hin a). now apply get_In.
Qed.

(** X11. On a graph built by [add_transaction] calls each entry of the
    answer of [get_top_co_purchase] carries the count that
    [check_co_purchase_relation] gives for the target and that
    neighbour, in either order; no neighbour comes twice; and when the
    answer is shorter than [n] it holds every neighbour. *)
Theorem top_co_purchase_agrees_with_check (txs : list (list string))
  (target : string) (n : Z) (Hn : 0 <= n) :
  let g := ingest txs init in
  exists r,
    get_top_co_purchase target n g = Ok r g
    /\ NoDup (map fst r)
    /\ (forall b c, In (b, c) r ->
          check_co_purchase_relation target b g = Ok c g
          /\ check_co_purchase_relation b target g = Ok c g)
    /\ ((List.length r < Z.to_nat n)%nat ->
        forall b c, co g target b = Some c -> In (b, c) r).
Proof.
  intros g. rewrite get_top_co_purchase_run. eexists.
  split; [reflexivity|]. unfold top_co_purchase_of.
  destruct (Dict.get target (adjacency_list g)) as [d|] eqn:G.
  - rewrite slice_to_nonneg by exact Hn.
    destruct (sorted_by_count_desc_spec (items d)) as (Hp & _ & _).
    set (l := sorted_by_count_desc (items d)) in *.
    pose proof (wf_inner txs target d G) as Hwf.
    assert (Hnd : NoDup (map fst l)).
    { eapply Permutation_NoDup; [|exact Hwf].
      apply Permutation_map, Permutation_sym, Hp. }
    split; [|split].
    + rewrite <- (firstn_skipn (Z.to_nat n) l), map_app in Hnd.
      now apply NoDup_app_remove_r in Hnd.
    + intros b c Hin. apply In_firstn in Hin.
      apply (Permutation_in _ Hp) in Hin.
      assert (Hco : co g target b = Some c).
      { unfold co, lookup2. rewrite G. now apply In_get. }
      assert (Hco' : co g b target = Some c).
      { rewrite <- Hco. symmetry. apply symmetric_ingest. }
      rewrite !check_co_purchase_relation_run. unfold weight.
      now rewrite Hco, Hco'.
    + intros Hlen b c Hco. rewrite length_firstn in Hlen.
      rewrite firstn_all2 by lia.
      unfold co, lookup2 in Hco. rewrite G in Hco.
      apply get_In in Hco.
      eapply Permutation_in; [apply Permutation_sym, Hp|exact Hco].
  - simpl. split; [constructor|]. split; [intros ? ? []|].
    intros _ b c Hco. unfold co, lookup2 in Hco. rewrite G in Hco.
    discriminate.
Qed.

Lemma top_co_purchase_agrees_with_check_witness :
  0 <= 3
  /\ exists r,
       get_top_co_purchase "whole milk" 3 test_graph = Ok r test_graph
       /\ NoDup (map fst r).
Proof.
  assert (Hn : 0 <= 3) by lia.
  split; [exact Hn|].
  destruct (top_co_purchase_agrees_with_check test_transactions
              "whole milk" 3 Hn) as (r & Hrun & Hnd & _).
  exists r. split; [exact Hrun|exact Hnd].
Defined.

(** ** Recommendation scores *)

Lemma set_fresh {V : Type} k (v : V) d :
  ~ In k (Dict.keys d) -> Dict.set k v d = d ++ [(k, v)].
Proof.
  unfold Dict.keys. induction d as [|[k0 v0] r IH]; simpl; intros H; auto.
  destruct (String.eqb k0 k) eqn:E.
  - apply String.eqb_eq in E. tauto.
  - rewrite IH; auto.
Qed.

Lemma counter_get_fold_score inputs x d : forall sc,
  Dict.wf d ->
  Counter.get x (fold_left (score_neighbor inputs) d sc)
  = Counter.get x sc
    + (if str_in x inputs then 0 else or_zero (Dict.get x d)).
Proof.
  unfold Dict.wf, Dict.keys.
  induction d as [|[k v] r IH]; intros sc Hwf; simpl.
  - destruct (str_in x inputs); simpl; lia.
  - inversion Hwf as [|? ? Hk Hr]; subst.
    rewrite IH by exact Hr. unfold score_neighbor. simpl.
    destruct (String.eqb k x) eqn:E.
    + apply String.eqb_eq in E. subst k.
      assert (Hnone : Dict.get x r = None) by now apply get_None_keys.
      rewrite Hnone. simpl.
      destruct (str_in x inputs); simpl; [lia|].
      rewrite counter_get_add, String.eqb_refl. lia.
    + destruct (str_in k inputs); simpl; auto.
      rewrite counter_get_add, E. lia.
Qed.

Lemma counter_get_scores g inputs x l : forall sc,
  adjacency_wf (adjacency_list g) ->
  Counter.get x (fold_left (scores_step (adjacency_list g) inputs) l sc)
  = Counter.get x sc
    + (if str_in x inputs then 0 else total_weight g l x).
Proof.
  intros sc [_ Hin]. revert sc.
  induction l as [|p l IH]; intros sc; simpl.
  - destruct (str_in x inputs); lia.
  - rewrite IH. unfold scores_step, weight, co, lookup2.
    destruct (Dict.get p (adjacency_list g)) as [d|] eqn:G.
    + rewrite counter_get_fold_score by (apply (Hin p); now apply get_In).
      unfold items. destruct (str_in x inputs); lia.
    + simpl. destruct (str_in x inputs); lia.
Qed.

Lemma scores_wf g inputs l : forall sc,
  Dict.wf sc ->
  Dict.wf (fold_left (scores_step (adjacency_list g) inputs) l sc).
Proof.
  induction l as [|p l IH]; intros sc Hsc; simpl; auto.
  apply IH. unfold scores_step.
  destruct (Dict.get p (adjacency_list g)) as [d|]; auto.
  unfold items. revert sc Hsc.
  induction d as [|nc d IHd]; intros sc Hsc; simpl; auto.
  apply IHd. unfold score_neighbor, Counter.add.
  destruct (negb (str_in (fst nc) inputs)); auto. now apply wf_set.
Qed.

Lemma co_positive_ingest txs a b n :
  co (ingest txs init) a b = Some n -> 1 <= n.
Proof.
  rewrite co_ingest.
  pose proof (total_increments_nonneg txs a b).
  destruct (total_increments txs a b =? 0) eqn:E.
  - discriminate.
  - apply Z.eqb_neq in E. intros [= <-]. cbv [weight co init lookup2].
    simpl. lia.
Qed.

Lemma weight_nonneg_ingest txs a b : 0 <= weight (ingest txs init) a b.
Proof.
  unfold weight. destruct (co (ingest txs init) a b) as [n|] eqn:E; simpl.
  - apply co_positive_ingest in E. lia.
  - lia.
Qed.

Lemma total_weight_nonneg txs inputs x :
  0 <= total_weight (ingest txs init) inputs x.
Proof.
  induction inputs as [|p l IH]; simpl; [lia|].
  pose proof (weight_nonneg_ingest txs p x). lia.
Qed.

(** Every stored score has been raised at least once, by a stored count. *)
Lemma scores_positive txs inputs l : forall sc,
  (forall x s, In (x, s) sc -> 1 <= s) ->
  forall x s,
    In (x, s) (fold_left
                 (scores_step (adjacency_list (ingest txs init)) inputs) l sc)
    -> 1 <= s.
Proof.
  induction l as [|p l IH]; intros sc Hsc; simpl; auto.
  apply IH. unfold scores_step.
  destruct (Dict.get p (adjacency_list (ingest txs init))) as [d|] eqn:G; auto.
  assert (Hd : forall k v, In (k, v) d -> 1 <= v).
  { intros k v Hin. apply (co_positive_ingest txs p k).
    unfold co, lookup2. rewrite G.
    apply In_get; auto. now apply (wf_inner txs p). }
  unfold items. clear G. revert sc Hsc.
  induction d as [|[k v] d IHd]; intros sc Hsc; simpl; auto.
  apply IHd; [intros; apply (Hd k0 v0); now right|].
  intros x s. unfold score_neighbor, Counter.add. simpl.
  destruct (str_in k inputs); simpl; [apply Hsc|].
  intros Hin. apply In_set in Hin. destruct Hin as [[-> ->]|Hin]; eauto.
  assert (1 <= v) by (apply (Hd k); now left).
  unfold Counter.get. destruct (Dict.get k sc) as [w|] eqn:Gk; [|lia].
  apply get_In in Gk. specialize (Hsc _ _ Gk). lia.
Qed.

(** X12. On a graph built by [add_transaction] calls the score of a
    recommended product is the sum, over the input products as listed,
    of the counts recorded between them and the product; it is at least
    1; no product comes twice; and an answer shorter than [n] holds
    every product outside the inputs that has a count with one of them. *)
Theorem recommendation_scores_are_sums (txs : list (list string))
  (inputs : list string) (n : Z) :
  let g := ingest txs init in
  exists r,
    get_recommendation inputs n g = Ok r g
    /\ NoDup (map fst r)
    /\ (forall x s, In (x, s) r ->
          ~ In x inputs /\ s = total_weight g inputs x /\ 1 <= s)
    /\ ((List.length r < Z.to_nat n)%nat ->
        forall x, ~ In x inputs -> 0 < total_weight g inputs x ->
                  In (x, total_weight g inputs x) r).
Proof.
  intros g. rewrite get_recommendation_run. eexists.
  split; [reflexivity|].
  set (scores := recommendation_scores_of g inputs).
  assert (Hwf : Dict.wf scores).
  { apply scores_wf. constructor. }
  assert (Hget : forall x, Counter.get x scores
                   = if str_in x inputs then 0 else total_weight g inputs x).
  { intros x. unfold scores, recommendation_scores_of.
    rewrite counter_get_scores by apply adjacency_wf_ingest.
    reflexivity. }
  unfold most_common.
  destruct (n <=? 0) eqn:En.
  { split; [constructor|]. split; [intros ? ? []|].
    apply Z.leb_le in En. simpl. lia. }
  destruct (sorted_by_count_desc_spec (items scores)) as (Hp & _ & _).
  set (l := sorted_by_count_desc (items scores)) in *.
  split; [|split].
  - assert (Hnd : NoDup (map fst l)).
    { eapply Permutation_NoDup; [|exact Hwf].
      apply Permutation_map, Permutation_sym, Hp. }
    rewrite <- (firstn_skipn (Z.to_nat n) l), map_app in Hnd.
    now apply NoDup_app_remove_r in Hnd.
  - intros x s Hin. apply In_firstn in Hin.
    apply (Permutation_in _ Hp) in Hin.
    assert (Hx : ~ In x inputs).
    { now apply (recommendation_scores_keys g inputs x s). }
    split; [exact Hx|]. split.
    + specialize (Hget x). unfold Counter.get in Hget.
      rewrite (In_get _ _ _ Hwf Hin) in Hget.
      destruct (str_in x inputs) eqn:E; auto.
      apply str_in_In in E. tauto.
    + apply (scores_positive txs inputs inputs Dict.empty) with (x := x);
        [intros ? ? []|exact Hin].
  - intros Hlen x Hx Hpos. rewrite length_firstn in Hlen.
    rewrite firstn_all2 by lia.
    eapply Permutation_in; [apply Permutation_sym, Hp|].
    specialize (Hget x).
    destruct (str_in x inputs) eqn:E; [apply str_in_In in E; tauto|].
    unfold Counter.get in Hget.
    destruct (Dict.get x scores) as [s|] eqn:G; [|lia].
    apply get_In in G. now rewrite <- Hget.
Qed.

Lemma fold_score_fresh inputs d : forall sc,
  NoDup (Dict.keys sc ++ Dict.keys d) ->
  (forall k, In k (Dict.keys d) -> str_in k inputs = false) ->
  fold_left (score_neighbor inputs) d sc = sc ++ d.
Proof.
  unfold Dict.keys.
  induction d as [|[k v] d IH]; intros sc Hnd Hk; simpl.
  - now rewrite app_nil_r.
  - assert (Hfresh : ~ In k (map fst sc)).
    { apply NoDup_remove_2 in Hnd. intros H. apply Hnd.
      apply in_or_app. now left. }
    unfold score_neighbor at 2. simpl.
    rewrite (Hk k) by now left. simpl.
    unfold Counter.add, Counter.get.
    rewrite (proj2 (get_None_keys k sc) Hfresh).
    rewrite set_fresh by exact Hfresh.
    rewrite IH.
    + now rewrite <- app_assoc.
    + rewrite map_app. simpl. rewrite <- app_assoc. exact Hnd.
    + intros; apply Hk; now right.
Qed.

(** X13. On a graph built from deduplicated transactions, recommending for
    one product is asking for its top co-purchases: for [n > 0] the two
    queries return the same list. *)
Theorem recommend_single_is_top (txs : list (list string))
  (Hdedup : Forall (@NoDup string) txs) (p : string) (n : Z) (Hn : 0 < n) :
  get_recommendation [p] n (ingest txs init)
  = get_top_co_purchase p n (ingest txs init).
Proof.
  rewrite get_recommendation_run, get_top_co_purchase_run. f_equal.
  unfold recommendation_scores_of, top_co_purchase_of. simpl.
  unfold scores_step, most_common.
  assert (E : (n <=? 0) = false) by (apply Z.leb_gt; lia). rewrite E.
  destruct (Dict.get p (adjacency_list (ingest txs init))) as [d|] eqn:G.
  - rewrite slice_to_nonneg by lia.
    rewrite fold_score_fresh; [reflexivity| |].
    + simpl. now apply (wf_inner txs p).
    + intros k Hk. simpl. rewrite orb_false_r.
      apply String.eqb_neq. intros ->.
      assert (Hself : co (ingest txs init) p p = None).
      { rewrite co_ingest, total_increments_self by assumption. reflexivity. }
      unfold co, lookup2 in Hself. rewrite G in Hself.
      now apply get_None_keys in Hself.
  - now rewrite firstn_nil.
Qed.

Lemma recommend_single_is_top_witness :
  Forall (@NoDup string) test_transactions
  /\ 0 < 2
  /\ get_recommendation ["whole milk"] 2 test_graph
     = get_top_co_purchase "whole milk" 2 test_graph.
Proof.
  assert (Hd : Forall (@NoDup string) test_transactions).
  { repeat constructor; simpl; intuition discriminate. }
  assert (Hn : 0 < 2) by lia.
  split; [exact Hd|]. split; [exact Hn|].
  exact (recommend_single_is_top test_transactions Hd "whole milk" 2 Hn).
Defined.

(** ** The category filter as a sub-graph *)

Lemma of_items_fresh {V : Type} (l : list (string * V)) : forall d,
  NoDup (Dict.keys d ++ map fst l) ->
  fold_left (fun d kv => Dict.set (fst kv) (snd kv) d) l d = d ++ l.
Proof.
  unfold Dict.keys.
  induction l as [|[k v] l IH]; intros d Hnd; simpl.
  - now rewrite app_nil_r.
  - assert (Hfresh : ~ In k (map fst d)).
    { apply NoDup_remove_2 in Hnd. intros H. apply Hnd.
      apply in_or_app. now left. }
    rewrite set_fresh by exact Hfresh. rewrite IH.
    + now rewrite <- app_assoc.
    + rewrite map_app. simpl. rewrite <- app_assoc. exact Hnd.
Qed.

Lemma of_items_wf {V : Type} (l : list (string * V)) :
  NoDup (map fst l) -> Dict.of_items l = l.
Proof. intros H. unfold Dict.of_items. now rewrite of_items_fresh. Qed.

Lemma NoDup_keys_filter {V : Type} (P : string * V -> bool) l :
  NoDup (map fst l) -> NoDup (map fst (filter P l)).
Proof.
  induction l as [|kv l IH]; simpl; intros H; auto.
  inversion H as [|? ? Hk Hl]; subst.
  destruct (P kv); simpl; auto. constructor; auto.
  intros Hin. apply Hk. apply in_map_iff in Hin.
  destruct Hin as [y [Hy Hf]]. apply filter_In in Hf.
  apply in_map_iff. exists y. tauto.
Qed.

Lemma get_filter_key {V : Type} (P : string -> bool) q (d : dict V) :
  Dict.get q (filter (fun nc => P (fst nc)) d)
  = if P q then Dict.get q d else None.
Proof.
  induction d as [|[k v] d IH]; simpl.
  - now destruct (P q).
  - destruct (String.eqb k q) eqn:E.
    + apply String.eqb_eq in E. subst k.
      destruct (P q) eqn:Pq; simpl.
      * now rewrite String.eqb_refl.
      * rewrite IH, ?Pq. reflexivity.
    + destruct (P k) eqn:Pk; simpl; [rewrite E|]; exact IH.
Qed.

Lemma str_in_category_products g c p :
  Dict.wf (product_categories g) ->
  str_in p (category_products_of (product_categories g) c) = in_category g c p.
Proof.
  intros Hwf. unfold in_category.
  destruct (str_in p (category_products_of (product_categories g) c)) eqn:E.
  - apply str_in_In, category_products_In in E.
    rewrite (In_get _ _ _ Hwf E). now rewrite String.eqb_refl.
  - destruct (Dict.get p (product_categories g)) as [c'|] eqn:G; auto.
    destruct (String.eqb c' c) eqn:Ec; auto.
    apply String.eqb_eq in Ec. subst c'. apply get_In in G.
    apply category_products_In, str_in_In in G. congruence.
Qed.

Lemma get_fold_filter_step adj cp p l : forall acc,
  Dict.get p (fold_left (filter_step adj cp) l acc)
  = if str_in p l
    then match Dict.get p adj with
         | Some d =>
             match Dict.of_items
                     (filter (fun nc => str_in (fst nc) cp) (items d)) with
             | [] => Dict.get p acc
             | e :: r => Some (e :: r)
             end
         | None => Dict.get p acc
         end
    else Dict.get p acc.
Proof.
  induction l as [|x l IH]; intros acc; auto.
  cbn [fold_left]. rewrite IH. clear IH.
  cbn [str_in existsb]. fold (str_in p l).
  assert (Hstep : Dict.get p (filter_step adj cp acc x)
                  = if String.eqb p x
                    then match Dict.get p adj with
                         | Some d =>
                             match Dict.of_items
                                     (filter (fun nc => str_in (fst nc) cp)
                                        (items d)) with
                             | [] => Dict.get p acc
                             | e :: r => Some (e :: r)
                             end
                         | None => Dict.get p acc
                         end
                    else Dict.get p acc).
  { unfold filter_step.
    destruct (String.eqb p x) eqn:E.
    - apply String.eqb_eq in E. subst x.
      destruct (Dict.get p adj) as [d|]; auto.
      destruct (Dict.of_items _); auto. apply get_set_same.
    - apply String.eqb_neq in E.
      destruct (Dict.get x adj) as [d|]; auto.
      destruct (Dict.of_items _); auto. now apply get_set_other. }
  rewrite Hstep.
  destruct (String.eqb p x); simpl;
    destruct (str_in p l); auto;
    destruct (Dict.get p adj) as [d|]; auto;
    now destruct (Dict.of_items _).
Qed.

(** X14. On a graph built by [add_transaction] calls the result of
    [filter_by_category c] is the graph restricted to the products of
    category [c]: a pair has a count in it exactly when both products
    have category [c] and the graph has a count for them, and it is that
    count.  The result is symmetric like the graph, and none of its keys
    has an empty neighbour mapping. *)
Theorem filter_by_category_is_restriction (txs : list (list string))
  (c : string) :
  let g := ingest txs init in
  exists r,
    filter_by_category c g = Ok r g
    /\ (forall p q,
          lookup2 r p q
          = if in_category g c p && in_category g c q then co g p q else None)
    /\ (forall p q, lookup2 r p q = lookup2 r q p)
    /\ (forall p nbrs, Dict.get p r = Some nbrs -> nbrs <> Dict.empty).
Proof.
  intros g. rewrite filter_by_category_run. eexists.
  split; [reflexivity|].
  assert (Hcats : Dict.wf (product_categories g)) by apply categories_wf_ingest.
  set (cp := category_products_of (product_categories g) c).
  assert (Hget : forall p,
            Dict.get p (filter_by_category_of g c)
            = if in_category g c p
              then match Dict.get p (adjacency_list g) with
                   | Some d =>
                       match filter (fun nc => str_in (fst nc) cp) d with
                       | [] => None
                       | e :: r => Some (e :: r)
                       end
                   | None => None
                   end
              else None).
  { intros p. unfold filter_by_category_of. fold cp.
    rewrite get_fold_filter_step. unfold cp at 1.
    rewrite str_in_category_products by exact Hcats.
    destruct (in_category g c p); auto.
    destruct (Dict.get p (adjacency_list g)) as [d|] eqn:G; auto.
    unfold items. rewrite of_items_wf; [reflexivity|].
    apply NoDup_keys_filter. now apply (wf_inner txs p). }
  assert (Hlook : forall p q,
            lookup2 (filter_by_category_of g c) p q
            = if in_category g c p && in_category g c q
              then co g p q else None).
  { intros p q. unfold lookup2 at 1. rewrite Hget.
    unfold co, lookup2.
    destruct (in_category g c p); simpl; auto.
    destruct (Dict.get p (adjacency_list g)) as [d|] eqn:G;
      [|now destruct (in_category g c q)].
    pose proof (get_filter_key (fun k => str_in k cp) q d) as Hf.
    cbv beta in Hf. unfold cp at 2 in Hf.
    rewrite str_in_category_products in Hf by exact Hcats.
    destruct (filter (fun nc => str_in (fst nc) cp) d) as [|e r] eqn:Ef.
    - simpl in Hf. now destruct (in_category g c q).
    - exact Hf. }
  split; [exact Hlook|]. split.
  - intros p q. rewrite !Hlook.
    assert (Hs : co g p q = co g q p) by apply symmetric_ingest.
    now rewrite Hs, andb_comm.
  - intros p nbrs. rewrite Hget.
    destruct (in_category g c p); [|discriminate].
    destruct (Dict.get p (adjacency_list g)) as [d|]; [|discriminate].
    destruct (filter _ d); [discriminate|]. intros [= <-]. discriminate.
Qed.

(** * The loader and the graph [main] builds *)

Lemma weight_le_freq_ingest txs :
  Forall (@NoDup string) txs ->
  forall a b,
    weight (ingest txs init) a b <= freq (ingest txs init) a
    /\ weight (ingest txs init) a b <= freq (ingest txs init) b.
Proof.
  intros Hd.
  apply (ingest_ind_Forall (@NoDup string)
           (fun g => forall a b,
              weight g a b <= freq g a /\ weight g a b <= freq g b)); auto.
  - intros a b. cbv. split; discriminate.
  - intros t g Ht IH a b.
    rewrite weight_add_transaction, !freq_add_transaction.
    rewrite increments_NoDup, !occurrences_NoDup by exact Ht.
    specialize (IH a b).
    destruct (str_in a t), (str_in b t), (String.eqb a b); simpl; lia.
Qed.

Lemma build_graph_run transactions g :
  build_graph transactions g = Ok tt (ingest (map snd transactions) g).
Proof.
  unfold build_graph, items. revert g.
  induction transactions as [|kv r IH]; intros g; [reflexivity|].
  cbn [for_each map]. unfold bind. rewrite add_transaction_run.
  rewrite IH. now rewrite ingest_cons.
Qed.

Lemma add_item_wf T tid item : Dict.wf T -> Dict.wf (add_item T tid item).
Proof.
  intros H. unfold add_item.
  destruct (Dict.get tid T) as [l|]; [destruct (str_in item l)|];
    auto using wf_set.
Qed.

Lemma add_item_lists T tid item :
  (forall k l, In (k, l) T -> NoDup l /\ l <> []) ->
  forall k l, In (k, l) (add_item T tid item) -> NoDup l /\ l <> [].
Proof.
  intros H k l. unfold add_item.
  destruct (Dict.get tid T) as [l0|] eqn:G.
  - destruct (str_in item l0) eqn:E; [apply H|].
    intros Hin. apply In_set in Hin. destruct Hin as [[-> ->]|Hin]; eauto.
    apply get_In in G. destruct (H _ _ G) as [Hnd _]. split.
    + apply NoDup_rev in Hnd.
      rewrite <- (rev_involutive (l0 ++ [item])). apply NoDup_rev.
      rewrite rev_app_distr. simpl. constructor; auto.
      rewrite <- in_rev. intros Hi. apply str_in_In in Hi. congruence.
    + now destruct l0.
  - intros Hin. apply In_set in Hin. destruct Hin as [[-> ->]|Hin]; eauto.
    split; [repeat constructor; simpl; tauto|discriminate].
Qed.

Lemma add_item_holds T tid item k x :
  holds (add_item T tid item) k x <-> holds T k x \/ (k = tid /\ x = item).
Proof.
  unfold holds, add_item.
  destruct (String.eqb k tid) eqn:E.
  - apply String.eqb_eq in E. subst k.
    destruct (Dict.get tid T) as [l0|] eqn:G.
    + destruct (str_in item l0) eqn:Ei.
      * rewrite G. split; [intros H; now left|].
        intros [H|[_ ->]]; auto. exists l0. split; auto.
        now apply str_in_In.
      * rewrite get_set_same. split.
        -- intros [l [[= <-] Hin]]. apply in_app_or in Hin.
           destruct Hin as [Hin|[<-|[]]]; eauto.
        -- intros [[l [[= <-] Hin]]|[_ ->]]; eexists; split; eauto;
             apply in_or_app; simpl; auto.
    + rewrite get_set_same. split.
      * intros [l [[= <-] [<-|[]]]]. auto.
      * intros [[l [Hl _]]|[_ ->]]; [discriminate|].
        eexists; split; eauto. now left.
  - apply String.eqb_neq in E.
    assert (Hsame : Dict.get k
              match Dict.get tid T with
              | Some l => if str_in item l then T
                          else Dict.set tid (l ++ [item]) T
              | None => Dict.set tid [item] T
              end = Dict.get k T).
    { destruct (Dict.get tid T) as [l0|]; [destruct (str_in item l0)|];
        auto using get_set_other. }
    rewrite Hsame. split; [tauto|]. intros [H|[H _]]; [exact H|congruence].
Qed.

Section LoaderFacts.

Variable strip : string -> string.

Lemma load_row_run T r member_id date description :
  Dict.get "Member_number" r = Some member_id ->
  Dict.get "Date" r = Some date ->
  Dict.get "itemDescription" r = Some (Some description) ->
  load_row strip T r
  = inr (add_item T
           (transaction_id_of (format_field member_id) (format_field date))
           (strip description)).
Proof.
  intros Hm Hd Hi.
  unfold load_row, row_getitem, field_strip, add_item, transactions_getitem.
  rewrite Hm, Hd, Hi.
  destruct (Dict.get (transaction_id_of (format_field member_id)
                        (format_field date)) T) as [l|] eqn:G.
  - destruct (str_in (strip description) l); simpl; auto. now rewrite G.
  - simpl. rewrite get_set_same. simpl. now rewrite set_set.
Qed.

Lemma load_row_loadable T r :
  row_loadable r ->
  exists member_id date description,
    Dict.get "Member_number" r = Some member_id
    /\ Dict.get "Date" r = Some date
    /\ Dict.get "itemDescription" r = Some (Some description)
    /\ load_row strip T r
       = inr (add_item T
                (transaction_id_of (format_field member_id)
                   (format_field date))
                (strip description)).
Proof.
  intros (m & d & i & Hm & Hd & Hi).
  exists m, d, i. repeat split; auto. now apply load_row_run.
Qed.

(** A row either is loadable, and the loader goes on, or raises the
    exception [row_error] names. *)
Lemma load_row_cases T r :
  (row_loadable r /\ exists T', load_row strip T r = inr T')
  \/ (~ row_loadable r /\ exists e, load_row strip T r = inl e /\ row_error r e).
Proof.
  unfold row_error.
  destruct (Dict.get "Member_number" r) as [m|] eqn:Hm.
  - destruct (Dict.get "Date" r) as [d|] eqn:Hd.
    + destruct (Dict.get "itemDescription" r) as [[i|]|] eqn:Hi.
      * left. split; [exists m, d, i; auto|].
        eexists. eapply load_row_run; eassumption.
      * right. split.
        -- intros (m' & d' & i' & _ & _ & Hi'). congruence.
        -- exists AttributeError. split; auto.
           unfold load_row, row_getitem, field_strip.
           now rewrite Hm, Hd, Hi.
      * right. split.
        -- intros (m' & d' & i' & _ & _ & Hi'). congruence.
        -- eexists. split; [|reflexivity].
           unfold load_row, row_getitem. now rewrite Hm, Hd, Hi.
    + right. split.
      * intros (m' & d' & i' & _ & Hd' & _). congruence.
      * eexists. split; [|reflexivity].
        unfold load_row, row_getitem. now rewrite Hm, Hd.
  - right. split.
    + intros (m' & d' & i' & Hm' & _). congruence.
    + eexists. split; [|reflexivity].
      unfold load_row, row_getitem. now rewrite Hm.
Qed.

Lemma load_rows_ok rows : forall T T',
  load_rows strip rows T = inr T' ->
  Forall row_loadable rows
  /\ (Dict.wf T -> Dict.wf T')
  /\ ((forall k l, In (k, l) T -> NoDup l /\ l <> []) ->
      forall k l, In (k, l) T' -> NoDup l /\ l <> [])
  /\ (forall k x,
        holds T' k x
        <-> holds T k x \/ exists r, In r rows /\ row_gives strip r k x).
Proof.
  induction rows as [|r rest IH]; intros T T'; simpl.
  - intros [= <-]. split; [constructor|]. split; [auto|]. split; [auto|].
    intros k x. split; [auto|]. intros [Hk|[r [[] _]]]. exact Hk.
  - destruct (load_row_cases T r) as [[Hc _]|[_ [e [He _]]]];
      [|rewrite He; discriminate].
    destruct (load_row_loadable T r Hc) as (m & d & i & Hm & Hd & Hi & Hrun).
    rewrite Hrun. intros Hr.
    destruct (IH _ _ Hr) as (Hall & Hwf & Hlists & Hholds).
    split; [now constructor|]. split; [|split].
    + intros H. now apply Hwf, add_item_wf.
    + intros H. apply Hlists. now apply add_item_lists.
    + intros k x. rewrite Hholds, add_item_holds. split.
      * intros [[H|[-> ->]]|[r' [Hin Hg]]]; auto.
        -- right. exists r. split; [now left|].
           exists m, d, i. auto.
        -- right. exists r'. split; [now right|exact Hg].
      * intros [H|[r' [[<-|Hin] Hg]]]; auto.
        -- left. right.
           destruct Hg as (m' & d' & i' & Hm' & Hd' & Hi' & -> & ->).
           rewrite Hm in Hm'. rewrite Hd in Hd'. rewrite Hi in Hi'.
           injection Hm' as <-. injection Hd' as <-. injection Hi' as <-.
           auto.
        -- right. exists r'. auto.
Qed.

Lemma load_rows_total rows : forall T,
  Forall row_loadable rows -> exists T', load_rows strip rows T = inr T'.
Proof.
  induction rows as [|r rest IH]; intros T H; simpl; eauto.
  inversion H as [|? ? Hc Hr]; subst.
  destruct (load_row_loadable T r Hc) as (m & d & i & _ & _ & _ & Hrun).
  rewrite Hrun. now apply IH.
Qed.

Lemma load_rows_error rows : forall T e,
  load_rows strip rows T = inl e ->
  exists before_it r after_it,
    rows = before_it ++ r :: after_it
    /\ Forall row_loadable before_it /\ row_error r e.
Proof.
  induction rows as [|r rest IH]; intros T e; simpl; [discriminate|].
  destruct (load_row_cases T r) as [[Hc [T' HT']]|[_ [e' [He' Herr]]]].
  - rewrite HT'. intros H.
    destruct (IH _ _ H) as (l1 & r' & l2 & -> & Hl1 & Hr').
    exists (r :: l1), r', l2. repeat split; auto.
  - rewrite He'. intros [= <-]. exists [], r, rest. repeat split; auto.
Qed.

Lemma load_ok_iff rows :
  (exists transactions, load_supermarket_data strip rows = inr transactions)
  <-> Forall row_loadable rows.
Proof.
  unfold load_supermarket_data. split.
  - intros [T H]. now destruct (load_rows_ok _ _ _ H).
  - apply load_rows_total.
Qed.


(** X17. The transactions the loader returns are deduplicated and not empty,
    under pairwise distinct transaction identifiers: they are input that
    [add_transaction] expects. *)
Theorem loaded_transactions_deduplicated (rows : list row)
  (transactions : dict (list string))
  (Hload : load_supermarket_data strip rows = inr transactions) :
  Dict.wf transactions
  /\ forall tid l, In (tid, l) (items transactions) -> NoDup l /\ l <> [].
Proof.
  destruct (load_rows_ok _ _ _ Hload) as (_ & Hwf & Hlists & _).
  split; [apply Hwf; constructor|].
  apply Hlists. intros k l [].
Qed.

(** X18. An item is in a loaded transaction exactly when some row gives it
    for that transaction: the row holds the item's description (before
    stripping) and the member number and date that make up the
    transaction identifier. *)
Theorem loaded_transactions_membership (rows : list row)
  (transactions : dict (list string))
  (Hload : load_supermarket_data strip rows = inr transactions)
  (tid x : string) :
  holds transactions tid x
  <-> exists r, In r rows /\ row_gives strip r tid x.
Proof.
  destruct (load_rows_ok _ _ _ Hload) as (_ & _ & _ & Hholds).
  rewrite Hholds. split; [|auto].
  intros [[l [Hl _]]|H]; [discriminate|exact H].
Qed.


End LoaderFacts.

Lemma loaded_transactions_deduplicated_witness :
  load_supermarket_data (fun s => s) sample_rows = inr sample_transactions
  /\ Dict.wf sample_transactions
  /\ forall tid l, In (tid, l) (items sample_transactions) ->
                   NoDup l /\ l <> [].
Proof.
  assert (H : load_supermarket_data (fun s => s) sample_rows
              = inr sample_transactions) by (vm_compute; reflexivity).
  split; [exact H|].
  exact (loaded_transactions_deduplicated (fun s => s) sample_rows
           sample_transactions H).
Defined.

Lemma loaded_transactions_membership_witness :
  load_supermarket_data (fun s => s) sample_rows = inr sample_transactions
  /\ (holds sample_transactions "1808_21-07-2015" "whole milk"
      <-> exists r, In r sample_rows
            /\ row_gives (fun s => s) r "1808_21-07-2015" "whole milk").
Proof.
  assert (H : load_supermarket_data (fun s => s) sample_rows
              = inr sample_transactions) by (vm_compute; reflexivity).
  split; [exact H|].
  exact (loaded_transactions_membership (fun s => s) sample_rows
           sample_transactions H "1808_21-07-2015" "whole milk").
Defined.

(** A record that ends before the item description: the loader raises
    [AttributeError] and [main] does not reach its menu. *)
Example short_record_stops_main :
  load_supermarket_data (fun s => s) (sample_rows ++ [short_record])
  = inl AttributeError
  /\ main_build (fun s => s) (sample_rows ++ [short_record]) = None.
Proof. vm_compute. auto. Qed.

(** ** The most popular pairs *)

Lemma listed_pairs_recorded txs x y c :
  In ((x, y), c)
    (all_pairs (collect_pairs (adjacency_list (ingest txs init))))
  <-> co (ingest txs init) x y = Some c /\ String.leb x y = true.
Proof.
  set (g := ingest txs init).
  set (listed := all_pairs (collect_pairs (adjacency_list g))).
  assert (Hwf : adjacency_wf (adjacency_list g)) by apply adjacency_wf_ingest.
  assert (Hsym : symmetric g) by apply symmetric_ingest.
  pose proof (collect_invariant (entries (adjacency_list g))) as Hinv.
  cbv zeta in Hinv. rewrite <- collect_pairs_entries in Hinv.
  fold listed in Hinv. destruct Hinv as (_ & _ & Hfrom & Hall).
  assert (Hfwd : forall x y c, In ((x, y), c) listed ->
                   co g x y = Some c /\ String.leb x y = true).
  { intros x0 y0 c0 Hin. destruct (Hfrom _ _ Hin) as (a & b & Hab & Hxy).
    apply (In_entries_lookup2 _ _ _ _ Hwf) in Hab.
    rewrite sorted_pair_leb in Hxy.
    destruct (String.leb a b) eqn:E; injection Hxy as -> ->.
    - auto.
    - split; [rewrite Hsym; exact Hab|].
      destruct (String.leb_total a b) as [H|H]; congruence. }
  split; [apply Hfwd|].
  intros [Hco Hle].
  assert (Hent := proj2 (In_entries_lookup2 _ _ _ _ Hwf) Hco).
  apply Hall in Hent. rewrite sorted_pair_leb, Hle in Hent.
  apply in_map_iff in Hent. destruct Hent as [[[x' y'] c'] [Heq Hin]].
  simpl in Heq. injection Heq as -> ->.
  destruct (Hfwd _ _ _ Hin) as [Hco' _].
  assert (c' = c) by congruence. now subst c'.
Qed.

(** X15. On a graph built by [add_transaction] calls the three pairs of
    [get_top3_product_pairs] are a best choice among the recorded pairs:
    the answer has [min 3 (number of pairs)] entries, answer and rest
    together hold each pair with a count once (members in ascending
    order, with that count), and no pair of the rest has a larger count
    than a returned one. *)
Theorem top3_pairs_is_top (txs : list (list string)) :
  let g := ingest txs init in
  exists r rest,
    get_top3_product_pairs g = Ok r g
    /\ NoDup (map fst (r ++ rest))
    /\ (forall x y c, In ((x, y), c) (r ++ rest)
                      <-> co g x y = Some c /\ String.leb x y = true)
    /\ List.length r = Nat.min 3 (List.length (r ++ rest))
    /\ forall p q, In p r -> In q rest -> snd q <= snd p.
Proof.
  intros g.
  set (listed := all_pairs (collect_pairs (adjacency_list g))).
  destruct (sorted_by_count_desc_spec listed) as (Hp & Hs & _).
  exists (firstn 3 (sorted_by_count_desc listed)),
         (skipn 3 (sorted_by_count_desc listed)).
  rewrite firstn_skipn.
  split; [reflexivity|]. split; [|split; [|split]].
  - pose proof (collect_invariant (entries (adjacency_list g))) as Hinv.
    cbv zeta in Hinv. rewrite <- collect_pairs_entries in Hinv.
    destruct Hinv as (_ & Hnd & _).
    eapply Permutation_NoDup; [|exact Hnd].
    apply Permutation_map, Permutation_sym, Hp.
  - intros x y c.
    pose proof (listed_pairs_recorded txs x y c) as Hrec.
    fold g in Hrec. fold listed in Hrec. rewrite <- Hrec.
    split; apply Permutation_in; [exact Hp|apply Permutation_sym, Hp].
  - apply length_firstn.
  - intros p q Hp' Hq.
    exact (sorted_split_dominates _ _ _ Hs p q Hp' Hq).
Qed.

(** * Runs and the order of ties *)

Lemma ingest_run txs : forall g,
  for_each txs add_transaction g = Ok tt (ingest txs g).
Proof.
  induction txs as [|t r IH]; intros g; [reflexivity|].
  cbn [for_each]. unfold bind. rewrite add_transaction_run, IH.
  now rewrite ingest_cons.
Qed.

Lemma runs_to_query {A : Type} txs (query : M A) :
  runs_to txs query (query (ingest txs init)).
Proof. econstructor; [apply ingest_run|reflexivity]. Qed.

Lemma contains_In_keys {V : Type} k (d : dict V) :
  Dict.contains k d = true <-> In k (Dict.keys d).
Proof.
  rewrite contains_get.
  destruct (Dict.get k d) as [v|] eqn:G.
  - split; auto. intros _. apply get_In in G.
    unfold Dict.keys. apply in_map_iff. now exists (k, v).
  - split; [discriminate|]. intros H. now apply get_None_keys in G.
Qed.

Lemma keys_counter_add k v sc :
  Dict.keys (Counter.add k v sc) = append_new string_dec (Dict.keys sc) k.
Proof.
  unfold Counter.add, append_new. rewrite keys_set.
  destruct (Dict.contains k sc) eqn:E;
    destruct (in_dec string_dec k (Dict.keys sc)) as [Hin|Hout]; auto.
  - exfalso. apply Hout. now apply contains_In_keys.
  - apply contains_In_keys in Hin. congruence.
Qed.

Lemma keys_fold_score inputs d : forall sc,
  Dict.keys (fold_left (score_neighbor inputs) d sc)
  = fold_left (append_new string_dec)
      (filter (fun x => negb (str_in x inputs)) (Dict.keys d))
      (Dict.keys sc).
Proof.
  unfold Dict.keys at 2.
  induction d as [|[k v] d IH]; intros sc; [reflexivity|].
  cbn [fold_left map filter fst]. rewrite IH.
  unfold score_neighbor. cbn [fst snd].
  destruct (negb (str_in k inputs)); [|reflexivity].
  cbn [fold_left]. now rewrite keys_counter_add.
Qed.

Lemma keys_scores g inputs l : forall sc,
  Dict.keys (fold_left (scores_step (adjacency_list g) inputs) l sc)
  = fold_left (append_new string_dec)
      (filter (fun x => negb (str_in x inputs))
         (flat_map (fun p => match Dict.get p (adjacency_list g) with
                             | Some d => Dict.keys d
                             | None => []
                             end) l))
      (Dict.keys sc).
Proof.
  induction l as [|p l IH]; intros sc; [reflexivity|].
  cbn [fold_left flat_map]. rewrite IH, filter_app, fold_left_app.
  f_equal. unfold scores_step.
  destruct (Dict.get p (adjacency_list g)) as [d|]; [|reflexivity].
  apply keys_fold_score.
Qed.

(** The score counter holds the candidates in the order the walk over
    the input products first meets them. *)
Lemma scores_keys_candidates g inputs :
  Dict.keys (recommendation_scores_of g inputs)
  = first_occurrences string_dec (candidates g inputs).
Proof. unfold recommendation_scores_of. apply keys_scores. Qed.


